(** * Quota store and key rotation of google-search-mcp

    A shallow embedding of [src/global-config.ts] (class
    [GlobalConfigManager]), [src/config.ts] (class [GoogleSearchConfig]) and
    the control flow of [execute] in [src/tools/search.ts].

    The TypeScript code mutates record objects that are shared between the
    array [this.config.keys] and the values handed out by
    [getAvailableKey], so the records live in a heap and the array holds
    locations.  Exceptions keep every mutation done before the [throw], so
    the monad below returns the state in both outcomes.

    A request of the server gives way to the other requests at its one
    [await], the call to the search API: [execute] takes the calls the
    others make on the store in that time as an argument.

    Left out: the text written to the console, the path of the file (there
    is one file, at a fixed path), and the message texts of the errors the
    JavaScript engine throws. *)

From Stdlib Require Import ZArith Lia Ascii String.
From stdpp Require Import base option list gmap strings pretty.

(** ** JavaScript strings and values *)

Module JS.

(** [String.prototype.trim] strips white space and line terminators from
    both ends.  Strings are byte strings here, so the code points covered
    are the ASCII ones: TAB, LF, VT, FF, CR and SPACE. *)
Definition isWhiteSpace (c : ascii) : bool :=
  let n := nat_of_ascii c in
  (n =? 32)%nat || ((9 <=? n)%nat && (n <=? 13)%nat).

Fixpoint trimStartChars (cs : list ascii) : list ascii :=
  match cs with
  | [] => []
  | c :: cs' => if isWhiteSpace c then trimStartChars cs' else cs
  end.

Definition trimChars (cs : list ascii) : list ascii :=
  rev (trimStartChars (rev (trimStartChars cs))).

Definition trim (s : string) : string :=
  string_of_list_ascii (trimChars (list_ascii_of_string s)).

(** [s.split('T')[0]]: the part of [s] before its first ['T'] (all of [s]
    when it has none). *)
Fixpoint splitT0 (s : string) : string :=
  match s with
  | EmptyString => EmptyString
  | String c s' => if Ascii.eqb c "T" then EmptyString else String c (splitT0 s')
  end.

(** Truthiness of a string: every string but the empty one. *)
Definition truthy (s : string) : bool :=
  match s with EmptyString => false | String _ _ => true end.

(** [a || b] on strings. *)
Definition orElse (a b : string) : string := if truthy a then a else b.

(** [a || b] where [a] may be [undefined]. *)
Definition orUndefined (a : option string) (b : string) : string :=
  match a with
  | Some s => orElse s b
  | None => b
  end.

(** The [code] property of a thrown value: absent, a number or a string. *)
Inductive Code :=
| CodeUndefined
| CodeNumber (n : Z)
| CodeString (s : string).

Record Error := mkError { message : string; code : Code }.

(** [error.code === 403], strict equality with the number 403. *)
Definition codeIs403 (e : Error) : bool :=
  match code e with
  | CodeNumber n => (n =? 403)%Z
  | _ => false
  end.

(** The errors of the engine and of the file system: their name stands for
    their message. *)
Definition typeError : Error := mkError "TypeError" CodeUndefined.
Definition syntaxError : Error := mkError "SyntaxError" CodeUndefined.
Definition ioError (c : string) : Error := mkError "Error" (CodeString c).

End JS.

(** ** Data model ([src/global-config.ts], lines 4-18) *)

(** Numbers are the integers: the counters of this program only ever hold
    integers far below 2^53. *)
Record ApiKeyState := mkApiKeyState {
  id : string;
  apiKey : string;
  searchEngineId : string;
  dailyUsage : Z;
  dailyLimit : Z;
  lastReset : string;
  isActive : bool
}.

Definition loc := positive.

(** [this.config]: the array [keys] holds references to record objects. *)
Record GlobalConfig := mkGlobalConfig {
  keys : list loc;
  lastUpdated : string;
  version : option string
}.

(** A JSON document of the shape of [GlobalConfig], as [JSON.parse] yields it
    and [JSON.stringify] writes it: [JSON.stringify] followed by [JSON.parse]
    gives back the strings, integers and booleans of the records, so the
    text in between is left out.  [doc_version] is [None] when the property
    is absent. *)
Record Document := mkDocument {
  doc_keys : list ApiKeyState;
  doc_lastUpdated : string;
  doc_version : option string
}.

(** The content of the file at [configPath], up to [JSON.parse]: text on
    which [JSON.parse] throws, or text that parses to a document.  The field
    [config] is declared a [GlobalConfig], and so is what the file holds when
    it parses; [version] alone may be absent, which [migrateIfNeeded]
    provides for. *)
Inductive FileContent :=
| Unparsable (raw : string)
| Json (doc : Document).

(** The mutable world of a [GlobalConfigManager]: the object heap, the field
    [this.config] and the file at [this.configPath] ([None]: no file). *)
Record State := mkState {
  heap : gmap loc ApiKeyState;
  config : GlobalConfig;
  disk : option FileContent
}.

(** What an operation reads from its environment: [new Date().toISOString()]
    and whether the file system accepts reads and writes.  One operation
    sees one clock value. *)
Record Env := mkEnv {
  now : string;
  readOk : bool;
  writeOk : bool
}.

(** [new Date().toISOString().split('T')[0]] *)
Definition today (e : Env) : string := JS.splitT0 (now e).

Definition set_heap (h : gmap loc ApiKeyState) (s : State) : State :=
  mkState h (config s) (disk s).
Definition set_config (c : GlobalConfig) (s : State) : State :=
  mkState (heap s) c (disk s).
Definition set_disk (d : option FileContent) (s : State) : State :=
  mkState (heap s) (config s) d.

Definition set_keys (ks : list loc) (c : GlobalConfig) : GlobalConfig :=
  mkGlobalConfig ks (lastUpdated c) (version c).
Definition set_lastUpdated (t : string) (c : GlobalConfig) : GlobalConfig :=
  mkGlobalConfig (keys c) t (version c).
Definition set_version (v : string) (c : GlobalConfig) : GlobalConfig :=
  mkGlobalConfig (keys c) (lastUpdated c) (Some v).

(** ** A state and exception monad *)

Inductive Outcome (A : Type) :=
| Ok (a : A) (s : State)
| Throw (e : JS.Error) (s : State).
Arguments Ok {A} a s.
Arguments Throw {A} e s.

Definition M (A : Type) : Type := State → Outcome A.

#[export] Instance M_ret : MRet M := λ A a s, Ok a s.
#[export] Instance M_bind : MBind M := λ A B f m s,
  match m s with
  | Ok a s' => f a s'
  | Throw e s' => Throw e s'
  end.

Definition throw {A} (e : JS.Error) : M A := λ s, Throw e s.

(** [try { body } catch (error) { handler(error) }] *)
Definition tryCatch {A} (body : M A) (handler : JS.Error → M A) : M A := λ s,
  match body s with
  | Ok a s' => Ok a s'
  | Throw e s' => handler e s'
  end.

Definition modify (f : State → State) : M unit := λ s, Ok tt (f s).

(** Reading a property of [keys[i]].  A location without an object stands for
    a [null] element, on which property access throws. *)
Definition deref (l : loc) : M ApiKeyState := λ s,
  match heap s !! l with
  | Some k => Ok k s
  | None => Throw JS.typeError s
  end.

(** Writing the properties of the object at [l]. *)
Definition assign (l : loc) (k : ApiKeyState) : M unit :=
  _ ← deref l; modify (λ s, set_heap (<[l := k]> (heap s)) s).

(** An object literal: a new object at a location not in use. *)
Definition alloc (k : ApiKeyState) : M loc := λ s,
  let l := fresh (dom (heap s)) in
  Ok l (set_heap (<[l := k]> (heap s)) s).

Definition getConfig : M GlobalConfig := λ s, Ok (config s) s.
Definition setConfig (c : GlobalConfig) : M unit := modify (set_config c).

Fixpoint mapM {A B} (f : A → M B) (l : list A) : M (list B) :=
  match l with
  | [] => mret []
  | x :: l' => y ← f x; ys ← mapM f l'; mret (y :: ys)
  end.

(** [for (let i = start; i < start + n; i++) body(i)] *)
Fixpoint forRange (n start : nat) (body : nat → M unit) : M unit :=
  match n with
  | O => mret tt
  | S n' => body start;; forRange n' (S start) body
  end.

(** [array[i]] followed by a method call: [undefined] has no methods. *)
Definition index {A} (l : list A) (i : nat) : M A :=
  match l !! i with
  | Some x => mret x
  | None => throw JS.typeError
  end.

(** ** [GlobalConfigManager] ([src/global-config.ts]) *)

Module GlobalConfigManager.

Definition currentVersion : string := "1.0.0".

(** The literal [{ keys: [], lastUpdated: new Date().toISOString(),
    version: '1.0.0' }] of lines 47-51 and 55-59. *)
Definition emptyConfig (e : Env) : GlobalConfig :=
  mkGlobalConfig [] (now e) (Some currentVersion).

(** *** File system and JSON *)

Definition existsSync : M bool := λ s,
  Ok (match disk s with Some _ => true | None => false end) s.

Definition readFileSync (e : Env) : M FileContent := λ s,
  match disk s with
  | Some c => if readOk e then Ok c s else Throw (JS.ioError "EACCES") s
  | None => Throw (JS.ioError "ENOENT") s
  end.

Definition writeFileSync (e : Env) (d : Document) : M unit := λ s,
  if writeOk e then Ok tt (set_disk (Some (Json d)) s)
  else Throw (JS.ioError "EACCES") s.

Definition parse (c : FileContent) : M Document :=
  match c with
  | Unparsable _ => throw JS.syntaxError
  | Json d => mret d
  end.

(** [JSON.stringify(this.config, null, 2)] reads every record. *)
Definition stringify : M Document :=
  c ← getConfig;
  ks ← mapM deref (keys c);
  mret (mkDocument ks (lastUpdated c) (version c)).

(** [this.config = JSON.parse(data)]: the parsed records are new objects. *)
Definition assignParsed (d : Document) : M unit :=
  ks ← mapM alloc (doc_keys d);
  setConfig (mkGlobalConfig ks (doc_lastUpdated d) (doc_version d)).

(** *** [saveConfig], lines 70-78 *)
Definition saveConfig (e : Env) : M unit :=
  tryCatch
    (c ← getConfig;
     setConfig (set_lastUpdated (now e) c);;
     d ← stringify;
     writeFileSync e d)
    (λ _, mret tt).

(** *** [migrateIfNeeded], lines 63-68 *)
Definition versionMissing (c : GlobalConfig) : bool :=
  match version c with
  | Some v => negb (JS.truthy v)
  | None => true
  end.

Definition migrateIfNeeded (e : Env) : M unit :=
  c ← getConfig;
  if versionMissing c
  then (setConfig (set_version currentVersion c);; saveConfig e : M unit)
  else mret tt.

(** *** [resetDailyUsageIfNeeded], lines 138-155 *)
Definition stale (today : string) (k : ApiKeyState) : bool :=
  negb (String.eqb (lastReset k) today).

Definition resetKey (today : string) (k : ApiKeyState) : ApiKeyState :=
  mkApiKeyState (id k) (apiKey k) (searchEngineId k)
                0 (dailyLimit k) today true.

Fixpoint resetLoop (today : string) (ks : list loc) (hasChanges : bool)
  : M bool :=
  match ks with
  | [] => mret hasChanges
  | l :: ks' =>
      key ← deref l;
      if stale today key
      then (assign l (resetKey today key);; resetLoop today ks' true : M bool)
      else resetLoop today ks' hasChanges
  end.

Definition resetDailyUsageIfNeeded (e : Env) : M unit :=
  c ← getConfig;
  hasChanges ← resetLoop (today e) (keys c) false;
  if (hasChanges : bool) then saveConfig e else mret tt.

(** *** [loadConfig], lines 30-61 *)
Definition loadConfig (e : Env) : M unit :=
  tryCatch
    (found ← existsSync;
     if (found : bool)
     then data ← readFileSync e;
          d ← parse data;
          assignParsed d;;
          migrateIfNeeded e;;
          resetDailyUsageIfNeeded e
     else setConfig (emptyConfig e))
    (λ _, setConfig (emptyConfig e)).

(** *** [setupKeys], lines 80-97 *)
Definition newKey (e : Env) (apiKeys searchEngineIds : list string)
    (i : nat) : M unit :=
  a ← index apiKeys i;
  l ← alloc (mkApiKeyState
               ("key_" +:+ pretty (i + 1)%nat)
               (JS.trim a)
               (JS.orUndefined (JS.trim <$> searchEngineIds !! i)
                  (JS.orUndefined (JS.trim <$> searchEngineIds !! 0%nat) ""))
               0 100 (today e) true);
  c ← getConfig;
  setConfig (set_keys (keys c ++ [l]) c).

Definition setupKeys (e : Env) (apiKeys searchEngineIds : list string)
  : M unit :=
  c ← getConfig;
  setConfig (set_keys [] c);;
  forRange (length apiKeys) 0 (newKey e apiKeys searchEngineIds);;
  saveConfig e.

(** *** [getAvailableKey], lines 99-110 *)
Definition eligible (k : ApiKeyState) : bool :=
  isActive k && (dailyUsage k <? dailyLimit k)%Z.

Fixpoint firstEligible (ks : list loc) : M (option loc) :=
  match ks with
  | [] => mret None
  | l :: ks' =>
      key ← deref l;
      if eligible key then mret (Some l) else firstEligible ks'
  end.

Definition getAvailableKey (e : Env) : M (option loc) :=
  resetDailyUsageIfNeeded e;;
  c ← getConfig;
  firstEligible (keys c).

(** *** [incrementUsage], lines 112-119 *)

(** [this.config.keys.find(k => k.id === keyId)] *)
Fixpoint findById (keyId : string) (ks : list loc) : M (option loc) :=
  match ks with
  | [] => mret None
  | l :: ks' =>
      key ← deref l;
      if String.eqb (id key) keyId then mret (Some l) else findById keyId ks'
  end.

Definition incUsage (k : ApiKeyState) : ApiKeyState :=
  mkApiKeyState (id k) (apiKey k) (searchEngineId k)
                (dailyUsage k + 1) (dailyLimit k) (lastReset k) (isActive k).

Definition incrementUsage (e : Env) (keyId : string) : M unit :=
  c ← getConfig;
  found ← findById keyId (keys c);
  match found with
  | Some l => key ← deref l; assign l (incUsage key);; saveConfig e
  | None => mret tt
  end.

(** *** [getQuotaStatus], lines 121-136 *)
Record KeyStatus := mkKeyStatus {
  ks_id : string;
  used : Z;
  limit : Z;
  remaining : Z;
  active : bool
}.

Record QuotaStatus := mkQuotaStatus {
  totalUsed : Z;
  totalLimit : Z;
  keysStatus : list KeyStatus
}.

Definition statusOf (key : ApiKeyState) : KeyStatus :=
  mkKeyStatus (id key) (dailyUsage key) (dailyLimit key)
              (dailyLimit key - dailyUsage key) (isActive key).

(** [array.reduce((sum, key) => sum + f(key), 0)] *)
Fixpoint reduceSum (f : ApiKeyState → Z) (ks : list loc) (sum : Z) : M Z :=
  match ks with
  | [] => mret sum
  | l :: ks' => key ← deref l; reduceSum f ks' (sum + f key)%Z
  end.

Definition getQuotaStatus (e : Env) : M QuotaStatus :=
  resetDailyUsageIfNeeded e;;
  c ← getConfig;
  used ← reduceSum dailyUsage (keys c) 0%Z;
  lim ← reduceSum dailyLimit (keys c) 0%Z;
  st ← mapM (λ l, key ← deref l; mret (statusOf key)) (keys c);
  mret (mkQuotaStatus used lim st).

(** *** [disableKey], lines 157-164 *)
Definition deactivated (k : ApiKeyState) : ApiKeyState :=
  mkApiKeyState (id k) (apiKey k) (searchEngineId k)
                (dailyUsage k) (dailyLimit k) (lastReset k) false.

Definition disableKey (e : Env) (keyId reason : string) : M unit :=
  c ← getConfig;
  found ← findById keyId (keys c);
  match found with
  | Some l => key ← deref l; assign l (deactivated key);; saveConfig e
  | None => mret tt
  end.

(** *** [hasValidConfig], lines 166-169 *)
Fixpoint some (p : ApiKeyState → bool) (ks : list loc) : M bool :=
  match ks with
  | [] => mret false
  | l :: ks' => key ← deref l; if p key then mret true else some p ks'
  end.

Definition hasValidConfig : M bool :=
  c ← getConfig;
  if (0 <? length (keys c))%nat
  then some (λ k, JS.truthy (apiKey k) && JS.truthy (searchEngineId k))
            (keys c)
  else mret false.

(** The constructor, lines 24-28: [this.config] is assigned by
    [loadConfig] on every path, so its initial value is never read. *)
Definition create (e : Env) (file : option FileContent) : Outcome unit :=
  loadConfig e (mkState ∅ (mkGlobalConfig [] "" None) file).

End GlobalConfigManager.

(** ** [GoogleSearchConfig] ([src/config.ts]) *)

Module GoogleSearchConfig.

(** [checkConfiguration], lines 21-34 (console output left out). *)
Definition checkConfiguration (e : Env) : M unit :=
  valid ← GlobalConfigManager.hasValidConfig;
  if negb valid then mret tt
  else (_ ← GlobalConfigManager.getQuotaStatus e; mret tt : M unit).

(** The constructor, lines 16-19. *)
Definition create (e : Env) (file : option FileContent) : Outcome unit :=
  (GlobalConfigManager.loadConfig e;; checkConfiguration e)
    (mkState ∅ (mkGlobalConfig [] "" None) file).

(** [getAvailableKey], lines 36-49: an object literal filled from the
    fields of the selected record. *)
Definition getAvailableKey (e : Env) : M (option loc) :=
  key ← GlobalConfigManager.getAvailableKey e;
  match key with
  | None => mret None
  | Some l =>
      k ← deref l;
      l' ← alloc (mkApiKeyState (id k) (apiKey k) (searchEngineId k)
                    (dailyUsage k) (dailyLimit k) (lastReset k)
                    (isActive k));
      mret (Some l')
  end.

Definition incrementUsage (e : Env) (keyId : string) : M unit :=
  GlobalConfigManager.incrementUsage e keyId.

Definition getQuotaStatus (e : Env) : M GlobalConfigManager.QuotaStatus :=
  GlobalConfigManager.getQuotaStatus e.

Definition disableKey (e : Env) (keyId reason : string) : M unit :=
  GlobalConfigManager.disableKey e keyId reason.

Definition hasValidConfig : M bool := GlobalConfigManager.hasValidConfig.

End GoogleSearchConfig.

(** ** Sessions: the calls made on a loaded store

    The calls the requests of the server make on the store it shares among
    them, one after the other: JavaScript runs one piece of code at a time,
    and a request gives way to the others only at an [await]. *)

Module Session.

(** The collaborator-facing calls of the store, without [setupKeys]: the
    setup flow alone replaces the records. *)
Inductive Op :=
| Select
| RecordUsage (keyId : string)
| Deactivate (keyId reason : string)
| Snapshot
| HasUsable.

Inductive Reply :=
| Key (r : option loc)
| Done
| Quota (q : GlobalConfigManager.QuotaStatus)
| Usable (b : bool).

Definition perform (e : Env) (op : Op) : M Reply :=
  match op with
  | Select => r ← GlobalConfigManager.getAvailableKey e; mret (Key r)
  | RecordUsage keyId =>
      GlobalConfigManager.incrementUsage e keyId;; mret Done
  | Deactivate keyId reason =>
      GlobalConfigManager.disableKey e keyId reason;; mret Done
  | Snapshot => q ← GlobalConfigManager.getQuotaStatus e; mret (Quota q)
  | HasUsable => b ← GlobalConfigManager.hasValidConfig; mret (Usable b)
  end.

(** The calls of a session, each with the environment it runs in. *)
Definition run (calls : list (Env * Op)) : M (list Reply) :=
  mapM (λ c, perform c.1 c.2) calls.




End Session.

(** ** The search tool ([src/tools/search.ts]) *)

Module Search.

Record SearchParams := mkSearchParams {
  query : string;
  num : option Z;
  start : option Z;
  safe : option string;
  lr : option string;
  gl : option string;
  dateRestrict : option string;
  fileType : option string;
  siteSearch : option string;
  siteSearchFilter : option string;
  cr : option string;
  exactTerms : option string;
  excludeTerms : option string;
  orTerms : option string;
  rights : option string;
  sort : option string;
  searchType : option string
}.

(** The argument of [customsearch.cse.list], lines 97-120. *)
Record Request := mkRequest {
  auth : string;
  cx : string;
  q : string;
  req_num : Z;
  req_start : Z;
  req_safe : string;
  optional : list (string * string)
}.

(** [...(v && { name: v })] *)
Definition spread (name : string) (v : option string)
  : list (string * string) :=
  match v with
  | Some s => if JS.truthy s then [(name, s)] else []
  | None => []
  end.

(** [n || d] on numbers: 0 and [undefined] are falsy. *)
Definition numOr (n : option Z) (d : Z) : Z :=
  match n with
  | Some z => if (z =? 0)%Z then d else z
  | None => d
  end.

Definition searchParams (key : ApiKeyState) (p : SearchParams) : Request :=
  mkRequest (apiKey key) (searchEngineId key) (query p)
    (Z.min (numOr (num p) 5) 10)
    (numOr (start p) 1)
    (JS.orUndefined (safe p) "off")
    (spread "lr" (lr p)
     ++ match gl p with
        | Some g => if JS.truthy g then [("gl", g); ("hl", g)] else []
        | None => []
        end
     ++ spread "dateRestrict" (dateRestrict p)
     ++ spread "fileType" (fileType p)
     ++ spread "siteSearch" (siteSearch p)
     ++ spread "siteSearchFilter" (siteSearchFilter p)
     ++ spread "cr" (cr p)
     ++ spread "exactTerms" (exactTerms p)
     ++ spread "excludeTerms" (excludeTerms p)
     ++ spread "orTerms" (orTerms p)
     ++ spread "rights" (rights p)
     ++ spread "sort" (sort p)
     ++ spread "searchType" (searchType p)).

Record Item := mkItem {
  item_title : option string;
  item_link : option string;
  item_snippet : option string;
  item_displayLink : option string
}.

Record SearchResult := mkSearchResult {
  title : string;
  link : string;
  snippet : string;
  displayLink : string
}.

(** The value of [searchResponse.data.items]: a falsy value ([undefined]
    when the search found nothing), an array, whose elements may be [null]
    or [undefined] ([None]), or a truthy value that has no method [map]. *)
Inductive Items :=
| ItemsFalsy
| ItemsArray (elements : list (option Item))
| ItemsOther.

(** [searchResponse.data] *)
Record SearchData := mkSearchData {
  items : Items;
  totalResults : option string;
  searchTime : option string
}.

(** How the awaited call to the search API ends: it resolves with a
    response, whose [data] may be missing ([None]), or rejects with an
    error. *)
Inductive CallOutcome :=
| Resolved (data : option SearchData)
| Rejected (error : JS.Error).

Definition toResult (i : Item) : SearchResult :=
  mkSearchResult
    (JS.orUndefined (item_title i) "")
    (JS.orUndefined (item_link i) "")
    (JS.orUndefined (item_snippet i) "")
    (JS.orUndefined (item_displayLink i) "").

(** [searchResponse.data], read at line 126: no property can be read of
    [undefined]. *)
Definition dataOf (response : option SearchData) : M SearchData :=
  match response with
  | Some data => mret data
  | None => throw JS.typeError
  end.

(** The callback of [items.map], lines 127-132. *)
Definition resultOf (item : option Item) : M SearchResult :=
  match item with
  | Some i => mret (toResult i)
  | None => throw JS.typeError
  end.

(** [(data.items || []).map(...)], lines 126-132. *)
Definition resultsOf (data : SearchData) : M (list SearchResult) :=
  match items data with
  | ItemsFalsy => mret []
  | ItemsArray elements => mapM resultOf elements
  | ItemsOther => throw JS.typeError
  end.

(** The JSON text pushed on [response.content], as a value. *)
Inductive Content :=
| ResultText (results : list SearchResult) (query totalResults
    searchTime : string) (resultsCount : nat) (usedApiKey : string)
    (quotaStatus : GlobalConfigManager.QuotaStatus)
| ErrorText (message details : string)
    (quotaStatus : GlobalConfigManager.QuotaStatus).

Record Response := mkResponse {
  content : list Content;
  isError : bool
}.

(** [error.code ? `Code: ${error.code}` : 'Unknown error'] *)
Definition details (e : JS.Error) : string :=
  match JS.code e with
  | JS.CodeUndefined => "Unknown error"
  | JS.CodeNumber n => if (n =? 0)%Z then "Unknown error"
                       else "Code: " +:+ pretty n
  | JS.CodeString s => if JS.truthy s then "Code: " +:+ s
                       else "Unknown error"
  end.

Definition quotaExhausted : JS.Error :=
  JS.mkError
    "All Google API keys have reached their daily quota. Try again tomorrow."
    JS.CodeUndefined.

(** The [catch] block, lines 151-171. *)
Definition onError (e : Env) (error : JS.Error) : M Response :=
  (if JS.codeIs403 error
   then (apiKey ← GoogleSearchConfig.getAvailableKey e;
         match apiKey with
         | Some a =>
             k ← deref a;
             GoogleSearchConfig.disableKey e (id k)
               "Quota exceeded or 403 error"
         | None => mret tt
         end : M unit)
   else mret tt);;
  quota ← GoogleSearchConfig.getQuotaStatus e;
  mret (mkResponse
          [ErrorText (JS.message error) (details error) quota] true).

(** The [await] of line 122: while the call to the search API is in flight
    the other requests of the server run, and [during] are the calls they
    make on the store in that time, in their order.  What such a call
    throws is thrown in the request that made it.  The objects that
    [GoogleSearchConfig.getAvailableKey] creates for the other requests are
    theirs alone, so their calls are taken at the store itself. *)
Fixpoint await (during : list (Env * Session.Op)) : M unit :=
  match during with
  | [] => mret tt
  | c :: rest => λ s,
      match Session.perform c.1 c.2 s with
      | Ok _ s' => await rest s'
      | Throw _ s' => await rest s'
      end
  end.

(** [execute], lines 82-174.  [e1] is the environment up to the [await],
    [e2] the one after it; [api] is the search API, which answers the
    request of this call. *)
Definition execute (e1 e2 : Env) (during : list (Env * Session.Op))
    (api : Request → CallOutcome) (params : SearchParams) : M Response :=
  tryCatch
    (apiKey ← GoogleSearchConfig.getAvailableKey e1;
     match apiKey with
     | None => throw quotaExhausted
     | Some a =>
         k ← deref a;
         await during;;
         match api (searchParams k params) with
         | Rejected error => throw error
         | Resolved response =>
             k' ← deref a;
             GoogleSearchConfig.incrementUsage e2 (id k');;
             data ← dataOf response;
             results ← resultsOf data;
             quota ← GoogleSearchConfig.getQuotaStatus e2;
             mret (mkResponse
                     [ResultText results (query params)
                        (JS.orUndefined (totalResults data) "0")
                        (JS.orUndefined (searchTime data) "0")
                        (length results) (id k') quota]
                     false)
         end
     end)
    (onError e2).

End Search.

(** ** The setup script ([src/setup.js]) *)

Module Setup.

(** [String.prototype.toLowerCase], on the letters A to Z. *)
Definition lowerChar (c : ascii) : ascii :=
  let n := nat_of_ascii c in
  if (65 <=? n)%nat && (n <=? 90)%nat then ascii_of_nat (n + 32) else c.

Fixpoint toLowerCase (s : string) : string :=
  match s with
  | EmptyString => EmptyString
  | String c s' => String (lowerChar c) (toLowerCase s')
  end.

(** [s.split(',')]: the pieces between the commas, at least one. *)
Fixpoint splitComma (s : string) : list string :=
  match s with
  | EmptyString => [EmptyString]
  | String c s' =>
      if Ascii.eqb c "," then EmptyString :: splitComma s'
      else match splitComma s' with
           | [] => [String c EmptyString]
           | w :: ws => String c w :: ws
           end
  end.

(** [input.split(',').map(k => k.trim()).filter(k => k)], lines 150, 178. *)
Definition parseList (input : string) : list string :=
  List.filter JS.truthy (JS.trim <$> splitComma input).

(** [validateApiKey], lines 110-118. *)
Definition validateApiKey (apiKey : string) : bool :=
  if negb (JS.truthy apiKey) || (String.length apiKey <? 30)%nat then false
  else if negb (String.prefix "AIza" apiKey)
          && negb (String.prefix "Aiza" apiKey) then false
  else true.

(** The loop of [setupGlobalConfig], lines 33-44: the records are pushed on
    a local array that goes to [JSON.stringify] and nowhere else. *)
Fixpoint buildKeys (e : Env) (apiKeys searchEngineIds : list string)
    (n start : nat) (keys : list ApiKeyState) : M (list ApiKeyState) :=
  match n with
  | O => mret keys
  | S n' =>
      a ← index apiKeys start;
      buildKeys e apiKeys searchEngineIds n' (S start)
        (keys ++ [mkApiKeyState
                    ("key_" +:+ pretty (start + 1)%nat)
                    (JS.trim a)
                    (JS.orUndefined (JS.trim <$> searchEngineIds !! start)
                       (JS.orUndefined
                          (JS.trim <$> searchEngineIds !! 0%nat) ""))
                    0 100 (today e) true])
  end.

(** [setupGlobalConfig], lines 30-55: no [try] around the write. *)
Definition setupGlobalConfig (e : Env) (apiKeys searchEngineIds : list string)
  : M unit :=
  keys ← buildKeys e apiKeys searchEngineIds (length apiKeys) 0 [];
  GlobalConfigManager.writeFileSync e
    (mkDocument keys (now e) (Some "1.0.0")).

(** What the user types at the four prompts of [main]; a prompt that is not
    reached leaves its answer unread. *)
Record Answers := mkAnswers {
  overwrite : string;
  apiKeysInput : string;
  proceed : string;
  engineIdsInput : string
}.

(** How [main] ends. *)
Inductive Ending :=
| Preserved
| NoApiKey
| Stopped
| NoEngineId
| Completed (claude : bool)
| Failed (message : string).

(** [main], lines 120-227.  [claude] is what [setupClaudeCode] returns: it
    works on another file and catches its own errors. *)
Definition main (e : Env) (claude : bool) (answers : Answers) : M Ending :=
  found ← GlobalConfigManager.existsSync;
  if (found : bool)
     && negb (String.eqb (toLowerCase (overwrite answers)) "y")
  then mret Preserved
  else
    let apiKeys := parseList (apiKeysInput answers) in
    if (length apiKeys =? 0)%nat then mret NoApiKey
    else
      let invalidKeys := List.filter (λ k, negb (validateApiKey k)) apiKeys in
      if (0 <? length invalidKeys)%nat
         && negb (String.eqb (toLowerCase (proceed answers)) "y")
      then mret Stopped
      else
        let engineIds := parseList (engineIdsInput answers) in
        if (length engineIds =? 0)%nat then mret NoEngineId
        else
          tryCatch
            (setupGlobalConfig e apiKeys engineIds;;
             mret (Completed claude))
            (λ error, mret (Failed (JS.message error))).

End Setup.

(** ** Vocabulary of the proofs

    The states, values and predicates in which the lemmas describe what the
    operations do. *)

Import GlobalConfigManager Session.

(** *** Reasoning about the monad *)

Ltac munfold :=
  unfold mbind, mret, M_bind, M_ret, getConfig, setConfig, modify,
    throw, tryCatch, index in *;
  simpl in *.

(** The records of the store are allocated. *)
Definition allocated (h : gmap loc ApiKeyState) (ks : list loc) : Prop :=
  Forall (λ l, is_Some (h !! l)) ks.

Definition wf (s : State) : Prop := allocated (heap s) (keys (config s)).

(** The records of the store, in store order. *)
Definition recordsAt (h : gmap loc ApiKeyState) (ks : list loc)
  : list ApiKeyState := omap (λ l, h !! l) ks.

Definition records (s : State) : list ApiKeyState :=
  recordsAt (heap s) (keys (config s)).

(** *** Persisting *)

Definition touch (e : Env) (s : State) : State :=
  set_config (set_lastUpdated (now e) (config s)) s.

Definition document (s : State) : Document :=
  mkDocument (records s) (lastUpdated (config s)) (version (config s)).

(** The state after [saveConfig]: the time stamp is set, and the file holds
    the store when the write goes through. *)
Definition saved (e : Env) (s : State) : State :=
  if writeOk e
  then set_disk (Some (Json (document (touch e s)))) (touch e s)
  else touch e s.

(** *** The day-rollover reset *)

(** What the loop body of [resetDailyUsageIfNeeded] does to one record. *)
Definition refresh (d : string) (k : ApiKeyState) : ApiKeyState :=
  if stale d k then resetKey d k else k.

Definition refreshAll (d : string) (ks : list loc)
    (h : gmap loc ApiKeyState) : gmap loc ApiKeyState :=
  foldl (λ h l, alter (refresh d) l h) h ks.

Definition anyStale (d : string) (h : gmap loc ApiKeyState)
    (ks : list loc) : bool :=
  existsb (stale d) (recordsAt h ks).

Definition refreshed (e : Env) (s : State) : State :=
  set_heap (refreshAll (today e) (keys (config s)) (heap s)) s.

Definition needsReset (e : Env) (s : State) : bool :=
  anyStale (today e) (heap s) (keys (config s)).

(** The state after [resetDailyUsageIfNeeded]. *)
Definition afterReset (e : Env) (s : State) : State :=
  if needsReset e s then saved e (refreshed e s) else s.

(** *** Selection and lookup by id *)

(** A record may be handed out: it is active and under its daily limit. *)
Definition qualifies (k : ApiKeyState) : Prop :=
  isActive k = true ∧ (dailyUsage k < dailyLimit k)%Z.

(** The record at [l] is active and under its limit. *)
Definition eligibleAt (h : gmap loc ApiKeyState) (l : loc) : Prop :=
  eligible <$> h !! l = Some true.

(** The record at [l] has the id [keyId]. *)
Definition hasId (keyId : string) (h : gmap loc ApiKeyState) (l : loc)
  : Prop := id <$> h !! l = Some keyId.

#[export] Instance eligibleAt_dec h l : Decision (eligibleAt h l).
Proof. unfold eligibleAt. apply _. Defined.

#[export] Instance hasId_dec keyId h l : Decision (hasId keyId h l).
Proof. unfold hasId. apply _. Defined.

Definition selectAt (h : gmap loc ApiKeyState) (ks : list loc)
  : option loc := snd <$> list_find (eligibleAt h) ks.

Definition lookupId (keyId : string) (h : gmap loc ApiKeyState)
    (ks : list loc) : option loc := snd <$> list_find (hasId keyId h) ks.

(** *** Quota snapshot *)

Definition sumZ (l : list Z) : Z := foldr Z.add 0%Z l.

Definition snapshot (s : State) : QuotaStatus :=
  mkQuotaStatus (sumZ (dailyUsage <$> records s))
                (sumZ (dailyLimit <$> records s))
                (statusOf <$> records s).

(** *** Updates by id *)

Definition updateAt (f : ApiKeyState → ApiKeyState) (l : loc) (s : State)
  : State := set_heap (alter f l (heap s)) s.

(** The state after [incrementUsage] ([f := incUsage]) and [disableKey]
    ([f := deactivated]). *)
Definition updateById (f : ApiKeyState → ApiKeyState) (e : Env)
    (keyId : string) (s : State) : State :=
  match lookupId keyId (heap s) (keys (config s)) with
  | Some l => saved e (updateAt f l s)
  | None => s
  end.

(** *** [hasValidConfig] *)

Definition usable (s : State) : bool :=
  (0 <? length (keys (config s)))%nat
  && existsb (λ k, JS.truthy (apiKey k) && JS.truthy (searchEngineId k))
             (records s).

(** *** Sessions *)

(** The state after one call. *)
Definition step (e : Env) (op : Op) (s : State) : State :=
  match op with
  | Select | Snapshot => afterReset e s
  | RecordUsage keyId => updateById incUsage e keyId s
  | Deactivate keyId _ => updateById deactivated e keyId s
  | HasUsable => s
  end.

Definition reply (e : Env) (op : Op) (s : State) : Reply :=
  match op with
  | Select => Key (selectAt (heap (afterReset e s)) (keys (config s)))
  | Snapshot => Quota (snapshot (afterReset e s))
  | RecordUsage _ | Deactivate _ _ => Done
  | HasUsable => Usable (usable s)
  end.

Fixpoint steps (calls : list (Env * Op)) (s : State) : State :=
  match calls with
  | [] => s
  | c :: calls' => steps calls' (step c.1 c.2 s)
  end.

Fixpoint replies (calls : list (Env * Op)) (s : State) : list Reply :=
  match calls with
  | [] => []
  | c :: calls' => reply c.1 c.2 s :: replies calls' (step c.1 c.2 s)
  end.

(** *** New objects *)

(** The state after an object literal holding [k] has been evaluated. *)
Definition withNew (k : ApiKeyState) (s : State) : State :=
  set_heap (<[fresh (dom (heap s)) := k]> (heap s)) s.

(** *** [setupKeys] *)

(** The search engine id of the record at index [i]. *)
Definition scopeIdFor (searchEngineIds : list string) (i : nat) : string :=
  JS.orUndefined (JS.trim <$> searchEngineIds !! i)
    (JS.orUndefined (JS.trim <$> searchEngineIds !! 0%nat) "").

(** The object literal of lines 84-92. *)
Definition createdKey (e : Env) (searchEngineIds : list string) (i : nat)
    (a : string) : ApiKeyState :=
  mkApiKeyState ("key_" +:+ pretty (i + 1)%nat) (JS.trim a)
                (scopeIdFor searchEngineIds i) 0 100 (today e) true.

Definition pushed (l : loc) (s : State) : State :=
  set_config (set_keys (keys (config s) ++ [l]) (config s)) s.

(** The pairing as the specification words it: the scope id at position
    [i], the first one when position [i] is missing, the empty string when
    there is none. *)
Definition positionalScopeId (scopeIds : list string) (i : nat) : string :=
  match scopeIds !! i with
  | Some x => x
  | None => default "" (scopeIds !! 0%nat)
  end.

(** The record for key [a] at index [i] with the pairing of
    [positionalScopeId] and no trimming. *)
Definition plainKey (e : Env) (scopeIds : list string) (i : nat)
    (a : string) : ApiKeyState :=
  mkApiKeyState ("key_" +:+ pretty (i + 1)%nat) a
                (positionalScopeId scopeIds i) 0 100 (today e) true.

(** A string that [trim] leaves alone and that is not empty. *)
Definition entered (x : string) : Prop := JS.trim x = x ∧ x ≠ "".

(** No white space at the front. *)
Definition cleanFront (cs : list ascii) : Prop :=
  match cs with
  | [] => True
  | c :: _ => JS.isWhiteSpace c = false
  end.

(** *** [loadConfig] *)

(** The state after [migrateIfNeeded]. *)
Definition migrated (e : Env) (s : State) : State :=
  if versionMissing (config s)
  then saved e (set_config (set_version currentVersion (config s)) s)
  else s.

(** The file holds the store as it is in memory. *)
Definition synced (s : State) : Prop := disk s = Some (Json (document s)).

(** *** The [catch] block of the search tool *)

(** No record of the store is due for the reset on day [d]. *)
Definition settled (d : string) (s : State) : Prop :=
  anyStale d (heap s) (keys (config s)) = false.

(** *** The response of the search API *)

(** The results of an array of items, when every element can be read. *)
Fixpoint readAll (elements : list (option Search.Item))
  : option (list Search.SearchResult) :=
  match elements with
  | [] => Some []
  | Some i :: rest => cons (Search.toResult i) <$> readAll rest
  | None :: _ => None
  end.

(** The result list of a response, when [execute] can build it. *)
Definition resultList (data : Search.SearchData)
  : option (list Search.SearchResult) :=
  match Search.items data with
  | Search.ItemsFalsy => Some []
  | Search.ItemsArray elements => readAll elements
  | Search.ItemsOther => None
  end.



(** *** The answers typed at the prompts of the setup script *)

(** The entries typed one after the other with a comma and a space between
    them. *)
Fixpoint typed (xs : list string) : string :=
  match xs with
  | [] => ""
  | [x] => x
  | x :: rest => x +:+ String "," (String " " (typed rest))
  end.

Fixpoint commaFree (s : string) : bool :=
  match s with
  | EmptyString => true
  | String c s' => negb (Ascii.eqb c ",") && commaFree s'
  end.

(** *** The request of the search tool *)

(** The optional parameters of the request in the order of lines 104-119. *)
Definition parameterNames : list string :=
  ["lr"; "gl"; "hl"; "dateRestrict"; "fileType"; "siteSearch";
   "siteSearchFilter"; "cr"; "exactTerms"; "excludeTerms"; "orTerms";
   "rights"; "sort"; "searchType"].

(** *** Invariants of the records *)

(** The fields of a record that no call of a session writes. *)
Definition fixedFields (k : ApiKeyState) : string * string * string * Z :=
  (id k, apiKey k, searchEngineId k, dailyLimit k).

(** The usage of a record is within its budget. *)
Definition inBudget (k : ApiKeyState) : Prop :=
  (0 ≤ dailyUsage k ≤ dailyLimit k)%Z.

(** [P] survives the day-rollover reset and the deactivation of a record. *)
Definition stable (P : ApiKeyState → Prop) : Prop :=
  (∀ d k, P k → P (resetKey d k)) ∧ (∀ k, P k → P (deactivated k)).

(** An environment in which every write to the file fails. *)
Definition noWrite (e : Env) : Env := mkEnv (now e) (readOk e) false.

(** *** Sample stores *)

Definition morning : Env := mkEnv "2024-05-02T08:00:00.000Z" true true.
Definition evening : Env := mkEnv "2024-05-02T21:30:00.000Z" true true.
Definition afterMidnight : Env :=
  mkEnv "2024-05-03T00:00:04.000Z" true true.

Definition staleKey : ApiKeyState :=
  mkApiKeyState "key_1" "AIzaSyA-first" "cx-first" 57 100 "2024-05-01" false.
Definition spentKey : ApiKeyState :=
  mkApiKeyState "key_2" "AIzaSyB-second" "cx-second" 100 100 "2024-05-02" true.
Definition openKey : ApiKeyState :=
  mkApiKeyState "key_3" "AIzaSyC-third" "cx-third" 3 100 "2024-05-02" true.

(** One record last reset the day before: inactive, 57 calls used. *)
Definition staleStore : State :=
  mkState {[ 1%positive := staleKey ]}
          (mkGlobalConfig [1%positive] "2024-05-01T09:00:00.000Z"
                          (Some "1.0.0"))
          None.

(** Two records of the current day: the first at its limit, the second not. *)
Definition dayStore : State :=
  mkState (<[ 1%positive := spentKey ]> {[ 2%positive := openKey ]})
          (mkGlobalConfig [1%positive; 2%positive]
                          "2024-05-02T07:00:00.000Z" (Some "1.0.0"))
          None.

Ltac solve_wf :=
  unfold wf, allocated; simpl;
  repeat (constructor; [by eexists|]); constructor.

Definition nearlySpentKey : ApiKeyState :=
  mkApiKeyState "key_1" "AIzaSyA-first" "cx-first" 98 100 "2024-05-02" true.

(** Two records of the current day: the first two calls short of its limit. *)
Definition nearlySpentStore : State :=
  mkState (<[ 1%positive := nearlySpentKey ]> {[ 2%positive := openKey ]})
          (mkGlobalConfig [1%positive; 2%positive]
                          "2024-05-02T07:00:00.000Z" (Some "1.0.0"))
          None.

Definition usageSession : list (Env * Session.Op) :=
  [(morning, Session.RecordUsage "key_1");
   (morning, Session.Select);
   (morning, Session.RecordUsage "key_1")].


(** What another request does while a call for [key_1] is in flight, when
    its own call for [key_1] succeeds: it counts the call and reads the
    quota. *)
Definition otherSuccess : list (Env * Session.Op) :=
  [(morning, Session.RecordUsage "key_1"); (morning, Session.Snapshot)].

(** What another request does in that time when its own call for [key_1]
    fails with 403: it asks the store for a key again, deactivates [key_1]
    and reads the quota. *)
Definition otherFailure : list (Env * Session.Op) :=
  [(morning, Session.Select);
   (morning, Session.Deactivate "key_1" "Quota exceeded or 403 error");
   (morning, Session.Snapshot)].

Definition lastCallKey : ApiKeyState :=
  mkApiKeyState "key_1" "AIzaSyA-first" "cx-first" 99 100 "2024-05-02" true.

(** One record of the current day, one call short of its limit. *)
Definition lastCallStore : State :=
  mkState {[ 1%positive := lastCallKey ]}
          (mkGlobalConfig [1%positive] "2024-05-02T07:00:00.000Z"
                          (Some "1.0.0"))
          None.

Definition blankStore : State :=
  mkState ∅ (mkGlobalConfig [] "2024-05-01T09:00:00.000Z" (Some "1.0.0"))
          None.

Definition sampleQuery : Search.SearchParams :=
  Search.mkSearchParams "rocq prover" None None None None None None None
    None None None None None None None None None.


(** A store whose one record is spent. *)
Definition spentStore : State :=
  mkState {[ 1%positive := spentKey ]}
          (mkGlobalConfig [1%positive] "2024-05-02T07:00:00.000Z"
                          (Some "1.0.0"))
          None.

(** The search API answering with one item. *)
Definition answering (_ : Search.Request) : Search.CallOutcome :=
  Search.Resolved
    (Some (Search.mkSearchData
             (Search.ItemsArray
                [Some (Search.mkItem (Some "Rocq")
                         (Some "https://rocq-prover.org") None None)])
             (Some "1") None)).


(** The search API answering with a list that holds a [null]. *)
Definition holed (_ : Search.Request) : Search.CallOutcome :=
  Search.Resolved
    (Some (Search.mkSearchData (Search.ItemsArray [None]) None None)).

(** The search API answering 403. *)
Definition forbidden (_ : Search.Request) : Search.CallOutcome :=
  Search.Rejected (JS.mkError "Forbidden" (JS.CodeNumber 403)).

(** ** Lemmas *)

(** *** Strings and dates on examples *)

Example trim_example :
  JS.trim (String "009" "  cx 1 ") = "cx 1" ∧ JS.trim "   " = "".
Proof. split; reflexivity. Qed.

Example today_example :
  today morning = "2024-05-02" ∧ today afterMidnight = "2024-05-03".
Proof. split; reflexivity. Qed.

Example key_id_example :
  id (createdKey morning ["cx-1"] 11 "AIzaSyL-twelfth") = "key_12".
Proof. reflexivity. Qed.

(** *** Reasoning about the monad *)

Lemma set_heap_same s : set_heap (heap s) s = s.
Proof. by destruct s. Qed.

Lemma allocated_cons h l ks :
  allocated h (l :: ks) ↔ is_Some (h !! l) ∧ allocated h ks.
Proof. unfold allocated. by rewrite Forall_cons. Qed.

Lemma allocated_lookup h ks l :
  allocated h ks → l ∈ ks → is_Some (h !! l).
Proof. unfold allocated. rewrite Forall_forall. auto. Qed.

Lemma allocated_dom h h' ks :
  dom h ⊆ dom h' → allocated h ks → allocated h' ks.
Proof.
  unfold allocated. intros Hd Ha. eapply Forall_impl; [exact Ha|].
  intros l Hl. simpl in *. apply elem_of_dom, Hd, elem_of_dom, Hl.
Qed.

Lemma recordsAt_unfold h l ks :
  recordsAt h (l :: ks)
  = match h !! l with
    | Some k => k :: recordsAt h ks
    | None => recordsAt h ks
    end.
Proof. reflexivity. Qed.

Lemma recordsAt_cons h l ks k :
  h !! l = Some k → recordsAt h (l :: ks) = k :: recordsAt h ks.
Proof. rewrite recordsAt_unfold. by intros ->. Qed.

Lemma recordsAt_length h ks :
  allocated h ks → length (recordsAt h ks) = length ks.
Proof.
  induction ks as [|l ks IH]; [done|].
  intros [[k Hk] Ha]%allocated_cons.
  rewrite (recordsAt_cons _ _ _ _ Hk). simpl. by rewrite IH.
Qed.

Lemma recordsAt_ext h h' ks :
  (∀ l, l ∈ ks → h' !! l = h !! l) → recordsAt h' ks = recordsAt h ks.
Proof.
  induction ks as [|l ks IH]; [done|]. intros He.
  rewrite !recordsAt_unfold, He by left.
  rewrite IH; [done|]. intros l' Hl'. apply He. by right.
Qed.

Lemma recordsAt_fmap (f : ApiKeyState → ApiKeyState) h h' ks :
  (∀ l, l ∈ ks → h' !! l = f <$> h !! l) →
  recordsAt h' ks = f <$> recordsAt h ks.
Proof.
  induction ks as [|l ks IH]; [done|]. intros He.
  rewrite !recordsAt_unfold, He by left.
  rewrite IH by (intros l' Hl'; apply He; by right).
  by destruct (h !! l).
Qed.

Lemma recordsAt_lookup h ks i l :
  allocated h ks → ks !! i = Some l → recordsAt h ks !! i = h !! l.
Proof.
  revert i. induction ks as [|l0 ks IH]; [done|].
  intros i [[k Hk] Ha]%allocated_cons Hi.
  rewrite (recordsAt_cons _ _ _ _ Hk).
  destruct i as [|i]; simpl in *.
  - by simplify_eq.
  - by apply IH.
Qed.

Lemma deref_ok l k s : heap s !! l = Some k → deref l s = Ok k s.
Proof. unfold deref. by intros ->. Qed.

Lemma assign_ok l k k' s :
  heap s !! l = Some k →
  assign l k' s = Ok tt (set_heap (<[l := k']> (heap s)) s).
Proof. intros H. unfold assign. munfold. by rewrite (deref_ok _ _ _ H). Qed.

Lemma mapM_deref_ok ks s :
  allocated (heap s) ks → mapM deref ks s = Ok (recordsAt (heap s) ks) s.
Proof.
  induction ks as [|l ks IH]; [done|].
  intros [[k Hk] Ha]%allocated_cons.
  rewrite (recordsAt_cons _ _ _ _ Hk). simpl. munfold.
  by rewrite (deref_ok _ _ _ Hk), (IH Ha).
Qed.

(** *** Persisting *)

Lemma saveConfig_ok e s : wf s → saveConfig e s = Ok tt (saved e s).
Proof.
  intros Hwf. unfold saveConfig, stringify, saved, writeFileSync. munfold.
  rewrite mapM_deref_ok by exact Hwf.
  by destruct (writeOk e).
Qed.

Lemma heap_saved e s : heap (saved e s) = heap s.
Proof. unfold saved. by destruct (writeOk e). Qed.

Lemma keys_saved e s : keys (config (saved e s)) = keys (config s).
Proof. unfold saved. by destruct (writeOk e). Qed.

Lemma version_saved e s : version (config (saved e s)) = version (config s).
Proof. unfold saved. by destruct (writeOk e). Qed.

Lemma records_saved e s : records (saved e s) = records s.
Proof. unfold records. by rewrite heap_saved, keys_saved. Qed.

Lemma wf_saved e s : wf s → wf (saved e s).
Proof. unfold wf. by rewrite heap_saved, keys_saved. Qed.

(** *** The day-rollover reset *)

Lemma stale_resetKey d k : stale d (resetKey d k) = false.
Proof. unfold stale. simpl. by rewrite String.eqb_refl. Qed.

Lemma refresh_idem d k : refresh d (refresh d k) = refresh d k.
Proof.
  unfold refresh. destruct (stale d k) eqn:E.
  - by rewrite stale_resetKey.
  - by rewrite E.
Qed.


Lemma lastReset_refresh d k : lastReset (refresh d k) = d.
Proof.
  unfold refresh, stale.
  destruct (String.eqb_spec (lastReset k) d); simpl; done.
Qed.

Lemma alter_Some (f : ApiKeyState → ApiKeyState)
    (h : gmap loc ApiKeyState) l k :
  h !! l = Some k → alter f l h = <[l := f k]> h.
Proof.
  intros Hl. apply map_eq. intros j.
  destruct (decide (l = j)) as [<-|Hne].
  - by rewrite lookup_alter_eq, lookup_insert_eq, Hl.
  - by rewrite lookup_alter_ne, lookup_insert_ne.
Qed.

Lemma refreshAll_lookup d ks : ∀ h l,
  refreshAll d ks h !! l
  = if decide (l ∈ ks) then refresh d <$> h !! l else h !! l.
Proof.
  induction ks as [|a ks IH]; intros h l.
  - by rewrite decide_False by set_solver.
  - change (refreshAll d (a :: ks) h)
      with (refreshAll d ks (alter (refresh d) a h)).
    rewrite IH. destruct (decide (a = l)) as [->|Hne].
    + rewrite lookup_alter_eq.
      rewrite (decide_True (P := l ∈ l :: ks)) by (by left).
      case_decide; [|done].
      destruct (h !! l); simpl; [|done]. by rewrite refresh_idem.
    + rewrite lookup_alter_ne by done.
      destruct (decide (l ∈ ks)).
      * by rewrite decide_True by (by right).
      * rewrite decide_False; [done|].
        rewrite elem_of_cons. by intros [->|?].
Qed.

Lemma refreshAll_dom d ks h : dom (refreshAll d ks h) = dom h.
Proof.
  apply set_eq. intros l. rewrite !elem_of_dom, refreshAll_lookup.
  case_decide; [|done]. by rewrite fmap_is_Some.
Qed.

Lemma recordsAt_refreshAll d ks h :
  recordsAt (refreshAll d ks h) ks = refresh d <$> recordsAt h ks.
Proof.
  apply recordsAt_fmap. intros l Hl.
  by rewrite refreshAll_lookup, decide_True.
Qed.

Lemma anyStale_false d h ks l k :
  anyStale d h ks = false → l ∈ ks → h !! l = Some k → stale d k = false.
Proof.
  unfold anyStale. induction ks as [|a ks IH]; [set_solver|].
  rewrite recordsAt_unfold. intros Hs Hin Hk.
  apply elem_of_cons in Hin as [->|Hin].
  - rewrite Hk in Hs. simpl in Hs. by apply orb_false_elim in Hs as [? _].
  - apply IH; [|done..]. destruct (h !! a); [|done].
    simpl in Hs. by apply orb_false_elim in Hs as [_ ?].
Qed.

Lemma refreshAll_fresh d h ks :
  anyStale d h ks = false → refreshAll d ks h = h.
Proof.
  intros Hs. apply map_eq. intros l. rewrite refreshAll_lookup.
  case_decide as Hin; [|done].
  destruct (h !! l) as [k|] eqn:Hk; [|done]. simpl.
  unfold refresh. by rewrite (anyStale_false _ _ _ _ _ Hs Hin Hk).
Qed.

Lemma resetLoop_ok d ks : ∀ b s,
  allocated (heap s) ks →
  resetLoop d ks b s
  = Ok (b || anyStale d (heap s) ks)
       (set_heap (refreshAll d ks (heap s)) s).
Proof.
  induction ks as [|l ks IH]; intros b s Ha.
  - simpl. munfold. unfold anyStale. simpl.
    by rewrite orb_false_r, set_heap_same.
  - apply allocated_cons in Ha as [[k Hk] Ha].
    simpl. munfold. rewrite (deref_ok _ _ _ Hk).
    unfold anyStale. rewrite (recordsAt_cons _ _ _ _ Hk). simpl.
    rewrite (alter_Some _ _ _ _ Hk). unfold refresh.
    destruct (stale d k) eqn:Hst.
    + rewrite (assign_ok _ _ _ _ Hk), IH.
      * simpl. by rewrite orb_true_r.
      * simpl. eapply allocated_dom; [|exact Ha].
        rewrite dom_insert_L. set_solver.
    + rewrite insert_id by done. by rewrite IH.
Qed.

Lemma wf_refreshed e s : wf s → wf (refreshed e s).
Proof.
  unfold wf, refreshed. simpl. apply allocated_dom.
  by rewrite refreshAll_dom.
Qed.

Lemma resetDailyUsageIfNeeded_ok e s :
  wf s → resetDailyUsageIfNeeded e s = Ok tt (afterReset e s).
Proof.
  intros Hwf. unfold resetDailyUsageIfNeeded, afterReset, needsReset.
  munfold. rewrite resetLoop_ok by exact Hwf. simpl.
  destruct (anyStale _ _ _) eqn:Hs.
  - rewrite saveConfig_ok; [done|]. by apply wf_refreshed.
  - by rewrite (refreshAll_fresh _ _ _ Hs), set_heap_same.
Qed.

Lemma keys_afterReset e s :
  keys (config (afterReset e s)) = keys (config s).
Proof.
  unfold afterReset. destruct (needsReset e s); [|done].
  by rewrite keys_saved.
Qed.

Lemma heap_afterReset e s :
  heap (afterReset e s) = refreshAll (today e) (keys (config s)) (heap s).
Proof.
  unfold afterReset, needsReset.
  destruct (anyStale _ _ _) eqn:Hs.
  - by rewrite heap_saved.
  - by rewrite (refreshAll_fresh _ _ _ Hs).
Qed.

Lemma wf_afterReset e s : wf s → wf (afterReset e s).
Proof.
  intros Hwf. unfold wf. rewrite keys_afterReset, heap_afterReset.
  eapply allocated_dom; [|exact Hwf]. by rewrite refreshAll_dom.
Qed.

Lemma records_afterReset e s :
  records (afterReset e s) = refresh (today e) <$> records s.
Proof.
  unfold records. rewrite keys_afterReset, heap_afterReset.
  apply recordsAt_refreshAll.
Qed.

(** *** Selection and lookup by id *)

Lemma firstEligible_ok ks : ∀ s,
  allocated (heap s) ks →
  firstEligible ks s = Ok (selectAt (heap s) ks) s.
Proof.
  induction ks as [|l ks IH]; intros s Ha; [done|].
  apply allocated_cons in Ha as [[k Hk] Ha].
  simpl. munfold. rewrite (deref_ok _ _ _ Hk).
  unfold selectAt. simpl.
  destruct (decide (eligibleAt (heap s) l)) as [Hd|Hd];
    unfold eligibleAt in Hd; rewrite Hk in Hd; simpl in Hd.
  - by injection Hd as ->.
  - destruct (eligible k); [done|]. rewrite (IH _ Ha).
    unfold selectAt. by destruct (list_find _ ks) as [[??]|].
Qed.

Lemma findById_ok keyId ks : ∀ s,
  allocated (heap s) ks →
  findById keyId ks s = Ok (lookupId keyId (heap s) ks) s.
Proof.
  induction ks as [|l ks IH]; intros s Ha; [done|].
  apply allocated_cons in Ha as [[k Hk] Ha].
  simpl. munfold. rewrite (deref_ok _ _ _ Hk).
  unfold lookupId. simpl.
  destruct (decide (hasId keyId (heap s) l)) as [Hd|Hd];
    unfold hasId in Hd; rewrite Hk in Hd; simpl in Hd.
  - injection Hd as <-. by rewrite String.eqb_refl.
  - destruct (String.eqb_spec (id k) keyId) as [E|Hne]; [by rewrite E in Hd|].
    rewrite (IH _ Ha).
    unfold lookupId. by destruct (list_find _ ks) as [[??]|].
Qed.

Lemma getAvailableKey_ok e s :
  wf s →
  getAvailableKey e s
  = Ok (selectAt (heap (afterReset e s)) (keys (config s)))
       (afterReset e s).
Proof.
  intros Hwf. unfold getAvailableKey. munfold.
  rewrite resetDailyUsageIfNeeded_ok by done.
  rewrite firstEligible_ok by (by apply wf_afterReset).
  by rewrite keys_afterReset.
Qed.


(** *** Quota snapshot *)

Lemma reduceSum_ok f ks : ∀ sum s,
  allocated (heap s) ks →
  reduceSum f ks sum s
  = Ok (sum + sumZ (f <$> recordsAt (heap s) ks))%Z s.
Proof.
  induction ks as [|l ks IH]; intros sum s Ha.
  - simpl. munfold. by rewrite Z.add_0_r.
  - apply allocated_cons in Ha as [[k Hk] Ha].
    rewrite (recordsAt_cons _ _ _ _ Hk). simpl. munfold.
    rewrite (deref_ok _ _ _ Hk), (IH _ _ Ha).
    by rewrite Z.add_assoc.
Qed.

Lemma mapM_status_ok ks : ∀ s,
  allocated (heap s) ks →
  mapM (λ l, key ← deref l; mret (statusOf key)) ks s
  = Ok (statusOf <$> recordsAt (heap s) ks) s.
Proof.
  induction ks as [|l ks IH]; intros s Ha; [done|].
  apply allocated_cons in Ha as [[k Hk] Ha].
  rewrite (recordsAt_cons _ _ _ _ Hk). simpl. munfold.
  by rewrite (deref_ok _ _ _ Hk), (IH _ Ha).
Qed.

Lemma getQuotaStatus_ok e s :
  wf s →
  getQuotaStatus e s = Ok (snapshot (afterReset e s)) (afterReset e s).
Proof.
  intros Hwf. pose proof (wf_afterReset e _ Hwf) as Hwf'.
  unfold getQuotaStatus. munfold.
  rewrite resetDailyUsageIfNeeded_ok by done.
  rewrite !reduceSum_ok, mapM_status_ok by done.
  by rewrite !Z.add_0_l.
Qed.

(** *** Updates by id *)

Lemma lookupId_Some keyId (h : gmap loc ApiKeyState) ks l :
  lookupId keyId h ks = Some l →
  ∃ i k, ks !! i = Some l ∧ h !! l = Some k ∧ id k = keyId
         ∧ ∀ j l' k', (j < i)%nat → ks !! j = Some l' → h !! l' = Some k' →
                      id k' ≠ keyId.
Proof.
  unfold lookupId. destruct (list_find _ ks) as [[i l']|] eqn:Hf; [|done].
  simpl. intros [= ->]. apply list_find_Some in Hf as (Hi & Hid & Hbefore).
  unfold hasId in Hid. destruct (h !! l) as [k|] eqn:Hk; [|done].
  simpl in Hid. injection Hid as Hid.
  exists i, k. repeat split; [done..|].
  intros j l' k' Hj Hl' Hk' Heq.
  apply (Hbefore j l' Hl' Hj). unfold hasId. by rewrite Hk', <- Heq.
Qed.

Lemma lookupId_None keyId (h : gmap loc ApiKeyState) ks l k :
  lookupId keyId h ks = None → l ∈ ks → h !! l = Some k → id k ≠ keyId.
Proof.
  unfold lookupId. destruct (list_find _ ks) as [[i l']|] eqn:Hf; [done|].
  intros _ Hin Hk Heq. apply list_find_None in Hf.
  rewrite Forall_forall in Hf. apply (Hf l Hin).
  unfold hasId. by rewrite Hk, <- Heq.
Qed.

Lemma wf_updateAt f l s : wf s → wf (updateAt f l s).
Proof.
  unfold wf, updateAt. simpl. apply allocated_dom.
  intros j. rewrite !elem_of_dom.
  destruct (decide (l = j)) as [<-|Hne].
  - rewrite lookup_alter_eq. by rewrite fmap_is_Some.
  - by rewrite lookup_alter_ne.
Qed.

Lemma update_ok (f : ApiKeyState → ApiKeyState) e keyId s :
  wf s →
  (c ← getConfig;
   found ← findById keyId (keys c);
   match found with
   | Some l => key ← deref l; assign l (f key);; saveConfig e
   | None => mret tt
   end) s = Ok tt (updateById f e keyId s).
Proof.
  intros Hwf. unfold updateById. munfold.
  rewrite findById_ok by done.
  destruct (lookupId _ _ _) as [l|] eqn:Hl; [|done].
  apply lookupId_Some in Hl as (i & k & _ & Hk & _).
  rewrite (deref_ok _ _ _ Hk), (assign_ok _ _ _ _ Hk).
  rewrite <- (alter_Some _ _ _ _ Hk).
  apply saveConfig_ok, wf_updateAt, Hwf.
Qed.

Lemma incrementUsage_ok e keyId s :
  wf s → incrementUsage e keyId s = Ok tt (updateById incUsage e keyId s).
Proof. apply update_ok. Qed.

Lemma disableKey_ok e keyId reason s :
  wf s → disableKey e keyId reason s
         = Ok tt (updateById deactivated e keyId s).
Proof. apply update_ok. Qed.

Lemma keys_updateById f e keyId s :
  keys (config (updateById f e keyId s)) = keys (config s).
Proof.
  unfold updateById. destruct (lookupId _ _ _); [|done].
  by rewrite keys_saved.
Qed.

Lemma wf_updateById f e keyId s : wf s → wf (updateById f e keyId s).
Proof.
  intros Hwf. unfold updateById. destruct (lookupId _ _ _); [|done].
  by apply wf_saved, wf_updateAt.
Qed.

(** *** [hasValidConfig] *)

Lemma some_ok p ks : ∀ s,
  allocated (heap s) ks →
  some p ks s = Ok (existsb p (recordsAt (heap s) ks)) s.
Proof.
  induction ks as [|l ks IH]; intros s Ha; [done|].
  apply allocated_cons in Ha as [[k Hk] Ha].
  rewrite (recordsAt_cons _ _ _ _ Hk). simpl. munfold.
  rewrite (deref_ok _ _ _ Hk).
  destruct (p k); [done|]. by apply IH.
Qed.

Lemma hasValidConfig_ok s : wf s → hasValidConfig s = Ok (usable s) s.
Proof.
  intros Hwf. unfold hasValidConfig, usable. munfold.
  destruct (0 <? _)%nat; [|done]. by rewrite some_ok.
Qed.

(** *** Sessions *)

Lemma perform_ok e op s :
  wf s → perform e op s = Ok (reply e op s) (step e op s).
Proof.
  intros Hwf. destruct op; simpl; munfold.
  - by rewrite getAvailableKey_ok.
  - by rewrite incrementUsage_ok.
  - by rewrite disableKey_ok.
  - by rewrite getQuotaStatus_ok.
  - by rewrite hasValidConfig_ok.
Qed.

Lemma wf_step e op s : wf s → wf (step e op s).
Proof.
  intros Hwf. destruct op; simpl;
    auto using wf_afterReset, wf_updateById.
Qed.

Lemma wf_steps calls : ∀ s, wf s → wf (steps calls s).
Proof.
  induction calls as [|c calls IH]; intros s Hwf; [done|].
  simpl. by apply IH, wf_step.
Qed.

Lemma run_ok calls : ∀ s,
  wf s → run calls s = Ok (replies calls s) (steps calls s).
Proof.
  unfold run. induction calls as [|c calls IH]; intros s Hwf; [done|].
  simpl. munfold. rewrite perform_ok by done.
  by rewrite IH by (by apply wf_step).
Qed.

Lemma steps_app calls1 calls2 s :
  steps (calls1 ++ calls2) s = steps calls2 (steps calls1 s).
Proof.
  revert s. induction calls1 as [|c calls1 IH]; intros s; [done|].
  simpl. apply IH.
Qed.

Lemma keys_step e op s : keys (config (step e op s)) = keys (config s).
Proof.
  destruct op; simpl;
    auto using keys_afterReset, keys_updateById.
Qed.

Lemma keys_steps calls : ∀ s,
  keys (config (steps calls s)) = keys (config s).
Proof.
  induction calls as [|c calls IH]; intros s; [done|].
  simpl. by rewrite IH, keys_step.
Qed.

(** *** One record through the calls of a day *)

Lemma lookupId_ext keyId (h h' : gmap loc ApiKeyState) ks :
  (∀ l, id <$> h' !! l = id <$> h !! l) →
  lookupId keyId h' ks = lookupId keyId h ks.
Proof.
  intros Hid. unfold lookupId. induction ks as [|a ks IH]; [done|].
  simpl. destruct (decide (hasId keyId h' a)) as [H'|H'],
           (decide (hasId keyId h a)) as [H|H];
    unfold hasId in *; rewrite Hid in H'; try done.
  assert (Hs : ∀ x : option (nat * loc),
             snd <$> (prod_map S Datatypes.id <$> x) = snd <$> x)
    by (by intros [[??]|]).
  by rewrite !Hs.
Qed.

Lemma lookupId_elem keyId (h : gmap loc ApiKeyState) ks l :
  lookupId keyId h ks = Some l → l ∈ ks.
Proof.
  intros (i & k & Hi & _)%lookupId_Some. by eapply list_elem_of_lookup_2.
Qed.

Lemma ids_afterReset e s l :
  id <$> heap (afterReset e s) !! l = id <$> heap s !! l.
Proof.
  rewrite heap_afterReset, refreshAll_lookup.
  case_decide; [|done]. destruct (heap s !! l) as [k|]; [|done].
  simpl. unfold refresh. by destruct (stale _ k).
Qed.

Lemma heap_updateById f e keyId s :
  heap (updateById f e keyId s)
  = match lookupId keyId (heap s) (keys (config s)) with
    | Some l0 => alter f l0 (heap s)
    | None => heap s
    end.
Proof.
  unfold updateById. destruct (lookupId _ _ _); [|done].
  by rewrite heap_saved.
Qed.

Lemma ids_updateById f e keyId s l :
  (∀ k, id (f k) = id k) →
  id <$> heap (updateById f e keyId s) !! l = id <$> heap s !! l.
Proof.
  intros Hf. rewrite heap_updateById.
  destruct (lookupId _ _ _) as [l0|]; [|done].
  destruct (decide (l0 = l)) as [->|Hne].
  - rewrite lookup_alter_eq. destruct (heap s !! l); [|done].
    simpl. by rewrite Hf.
  - by rewrite lookup_alter_ne.
Qed.

Lemma ids_step e op s l :
  id <$> heap (step e op s) !! l = id <$> heap s !! l.
Proof.
  destruct op; simpl;
    auto using ids_afterReset; by apply ids_updateById.
Qed.

Lemma lookupId_step keyId e op s :
  lookupId keyId (heap (step e op s)) (keys (config (step e op s)))
  = lookupId keyId (heap s) (keys (config s)).
Proof.
  rewrite keys_step. apply lookupId_ext. intros l. apply ids_step.
Qed.









Lemma anyStale_refreshAll d ks (h : gmap loc ApiKeyState) :
  anyStale d (refreshAll d ks h) ks = false.
Proof.
  unfold anyStale. rewrite recordsAt_refreshAll.
  induction (recordsAt h ks) as [|k rs IH]; [done|].
  csimpl. rewrite IH, orb_false_r.
  unfold stale. by rewrite lastReset_refresh, String.eqb_refl.
Qed.

(** A second reset on the same day changes nothing. *)
Lemma afterReset_again e e' s :
  today e' = today e → afterReset e' (afterReset e s) = afterReset e s.
Proof.
  intros Hd. unfold afterReset at 1. unfold needsReset.
  rewrite keys_afterReset, heap_afterReset, Hd.
  by rewrite anyStale_refreshAll.
Qed.

(** *** New objects *)

Lemma alloc_ok k s : alloc k s = Ok (fresh (dom (heap s))) (withNew k s).
Proof. reflexivity. Qed.

Lemma fresh_None (h : gmap loc ApiKeyState) : h !! fresh (dom h) = None.
Proof. apply not_elem_of_dom, is_fresh. Qed.

Lemma fresh_not_key (h : gmap loc ApiKeyState) ks :
  allocated h ks → fresh (dom h) ∉ ks.
Proof.
  intros Ha Hin. destruct (allocated_lookup _ _ _ Ha Hin) as [k Hk].
  by rewrite fresh_None in Hk.
Qed.

Lemma heap_withNew_old k s l :
  l ≠ fresh (dom (heap s)) → heap (withNew k s) !! l = heap s !! l.
Proof. intros Hne. unfold withNew. simpl. by rewrite lookup_insert_ne. Qed.

Lemma heap_withNew_new k s :
  heap (withNew k s) !! fresh (dom (heap s)) = Some k.
Proof. unfold withNew. simpl. by rewrite lookup_insert_eq. Qed.

Lemma heap_withNew_key k s l :
  wf s → l ∈ keys (config s) → heap (withNew k s) !! l = heap s !! l.
Proof.
  intros Hwf Hl. apply heap_withNew_old. intros ->.
  by apply (fresh_not_key _ _ Hwf).
Qed.

Lemma wf_withNew k s : wf s → wf (withNew k s).
Proof.
  unfold wf. apply allocated_dom. unfold withNew. simpl.
  rewrite dom_insert_L. set_solver.
Qed.

Lemma records_withNew k s : wf s → records (withNew k s) = records s.
Proof.
  intros Hwf. unfold records. apply recordsAt_ext.
  intros l Hl. by apply heap_withNew_key.
Qed.

Lemma selectAt_Some (h : gmap loc ApiKeyState) ks l :
  selectAt h ks = Some l →
  l ∈ ks ∧ ∃ k, h !! l = Some k ∧ eligible k = true.
Proof.
  unfold selectAt. destruct (list_find _ _) as [[i l']|] eqn:Hf; [|done].
  simpl. intros [= ->]. apply list_find_Some in Hf as (Hi & Hel & _).
  split; [by eapply list_elem_of_lookup_2|].
  unfold eligibleAt in Hel. destruct (h !! l) as [k|]; [|done].
  exists k. split; [done|]. by injection Hel.
Qed.

Lemma selectAt_ext (h h' : gmap loc ApiKeyState) ks :
  (∀ l, l ∈ ks → h' !! l = h !! l) → selectAt h' ks = selectAt h ks.
Proof.
  intros He. unfold selectAt. induction ks as [|a ks IH]; [done|].
  simpl.
  destruct (decide (eligibleAt h' a)) as [H'|H'],
           (decide (eligibleAt h a)) as [H|H];
    unfold eligibleAt in *; rewrite He in H' by left; try done.
  assert (Hs : ∀ x : option (nat * loc),
             snd <$> (prod_map S Datatypes.id <$> x) = snd <$> x)
    by (by intros [[??]|]).
  rewrite !Hs. apply IH. intros l Hl. apply He. by right.
Qed.

Lemma lookupId_ext_keys keyId (h h' : gmap loc ApiKeyState) ks :
  (∀ l, l ∈ ks → h' !! l = h !! l) →
  lookupId keyId h' ks = lookupId keyId h ks.
Proof.
  intros He. unfold lookupId. induction ks as [|a ks IH]; [done|].
  simpl.
  destruct (decide (hasId keyId h' a)) as [H'|H'],
           (decide (hasId keyId h a)) as [H|H];
    unfold hasId in *; rewrite He in H' by left; try done.
  assert (Hs : ∀ x : option (nat * loc),
             snd <$> (prod_map S Datatypes.id <$> x) = snd <$> x)
    by (by intros [[??]|]).
  rewrite !Hs. apply IH. intros l Hl. apply He. by right.
Qed.

(** The state and value of [GoogleSearchConfig.getAvailableKey]. *)
Lemma copy_of_selected_ok e s :
  wf s →
  GoogleSearchConfig.getAvailableKey e s
  = match selectAt (heap (afterReset e s)) (keys (config s)) with
    | Some l =>
        match heap (afterReset e s) !! l with
        | Some k => Ok (Some (fresh (dom (heap (afterReset e s)))))
                       (withNew k (afterReset e s))
        | None => Throw JS.typeError (afterReset e s)
        end
    | None => Ok None (afterReset e s)
    end.
Proof.
  intros Hwf. unfold GoogleSearchConfig.getAvailableKey. munfold.
  rewrite getAvailableKey_ok by done.
  destruct (selectAt _ _) as [l|]; [|done].
  unfold deref. destruct (heap (afterReset e s) !! l) as [k|]; [|done].
  unfold withNew. by destruct k.
Qed.

(** *** [setupKeys] *)

Lemma newKey_ok e apiKeys searchEngineIds i a s :
  apiKeys !! i = Some a →
  newKey e apiKeys searchEngineIds i s
  = Ok tt (pushed (fresh (dom (heap s)))
             (withNew (createdKey e searchEngineIds i a) s)).
Proof. intros Ha. unfold newKey. munfold. by rewrite Ha. Qed.

Lemma recordsAt_app (h : gmap loc ApiKeyState) ks1 ks2 :
  recordsAt h (ks1 ++ ks2) = recordsAt h ks1 ++ recordsAt h ks2.
Proof. apply omap_app. Qed.

Lemma wf_pushed_new k s :
  wf s → wf (pushed (fresh (dom (heap s))) (withNew k s)).
Proof.
  intros Hwf. unfold wf, pushed. simpl. apply Forall_app. split.
  - apply (wf_withNew k s Hwf).
  - constructor; [|constructor]. rewrite lookup_insert_eq. by eexists.
Qed.

Lemma records_pushed_new k s :
  wf s → records (pushed (fresh (dom (heap s))) (withNew k s))
         = records s ++ [k].
Proof.
  intros Hwf. unfold records, pushed. simpl. rewrite recordsAt_app.
  f_equal.
  - apply recordsAt_ext. intros l Hl. rewrite lookup_insert_ne; [done|].
    intros <-. by apply (fresh_not_key _ _ Hwf).
  - unfold recordsAt. simpl. by rewrite lookup_insert_eq.
Qed.

(** The loop of [setupKeys] from index [start] on: one new record per
    remaining key, appended in order; the objects that existed before are
    not among the new records. *)
Lemma setupLoop_ok e apiKeys searchEngineIds : ∀ n start s,
  (start + n = length apiKeys)%nat → wf s →
  ∃ s', forRange n start (newKey e apiKeys searchEngineIds) s = Ok tt s'
      ∧ wf s'
      ∧ records s'
        = records s
          ++ imap (λ j a, createdKey e searchEngineIds (start + j) a)
                  (drop start apiKeys)
      ∧ (∃ new, keys (config s') = keys (config s) ++ new
                ∧ ∀ l, l ∈ new → heap s !! l = None)
      ∧ (∀ l k, heap s !! l = Some k → heap s' !! l = Some k)
      ∧ lastUpdated (config s') = lastUpdated (config s)
      ∧ version (config s') = version (config s)
      ∧ disk s' = disk s.
Proof.
  induction n as [|n IH]; intros start s Hlen Hwf.
  - exists s. rewrite drop_ge by lia. simpl.
    rewrite app_nil_r. repeat (split; [done|]).
    split; [|done]. exists []. rewrite app_nil_r. split; [done|].
    intros l Hl. by apply elem_of_nil in Hl.
  - destruct (lookup_lt_is_Some_2 apiKeys start) as [a Ha]; [lia|].
    simpl. munfold. rewrite (newKey_ok _ _ _ _ _ _ Ha).
    set (k := createdKey e searchEngineIds start a).
    set (c := fresh (dom (heap s))).
    destruct (IH (S start) (pushed c (withNew k s))) as
      (s' & Hrun & Hwf' & Hrec & (new & Hkeys & Hnew) & Hold & Hlu & Hv & Hd);
      [lia|by apply wf_pushed_new|].
    exists s'. split; [done|]. split; [done|].
    split; [|split; [|split]].
    + rewrite Hrec. unfold c. rewrite records_pushed_new by done.
      rewrite (drop_S _ _ _ Ha), imap_cons, <- app_assoc. simpl.
      rewrite Nat.add_0_r. do 2 f_equal.
      apply imap_ext. intros j x _. simpl. f_equal. lia.
    + exists (c :: new). split.
      * rewrite Hkeys. unfold pushed. simpl. by rewrite <- app_assoc.
      * intros l [->|Hl]%elem_of_cons; [apply fresh_None|].
        specialize (Hnew l Hl). unfold pushed, withNew in Hnew.
        simpl in Hnew. apply lookup_insert_None in Hnew. tauto.
    + intros l k0 Hk0. apply Hold. unfold pushed, withNew. simpl.
      rewrite lookup_insert_ne; [done|]. intros <-.
      by rewrite fresh_None in Hk0.
    + done.
Qed.

(** *** [loadConfig] *)

(** The parsed records become new objects, in order. *)
Lemma mapM_alloc_ok rs : ∀ s,
  ∃ ls h', mapM alloc rs s = Ok ls (set_heap h' s)
         ∧ recordsAt h' ls = rs
         ∧ allocated h' ls
         ∧ (∀ l k, heap s !! l = Some k → h' !! l = Some k)
         ∧ (∀ l, l ∈ ls → heap s !! l = None).
Proof.
  induction rs as [|k rs IH]; intros s.
  - exists [], (heap s). simpl. munfold. rewrite set_heap_same.
    split; [done|]. split; [done|]. split; [constructor|].
    split; [done|]. intros l Hl. by apply elem_of_nil in Hl.
  - destruct (IH (withNew k s)) as (ls & h' & Hrun & Hrec & Ha & Hold & Hnew).
    exists (fresh (dom (heap s)) :: ls), h'.
    assert (Hc : h' !! fresh (dom (heap s)) = Some k)
      by apply Hold, heap_withNew_new.
    split.
    { simpl. munfold. unfold withNew in Hrun. simpl in Hrun.
      by rewrite Hrun. }
    split; [by rewrite (recordsAt_cons _ _ _ _ Hc), Hrec|].
    split; [by apply allocated_cons|].
    split.
    + intros l k0 Hk0. apply Hold. rewrite heap_withNew_old; [done|].
      intros ->. by rewrite fresh_None in Hk0.
    + intros l [->|Hl]%elem_of_cons; [apply fresh_None|].
      specialize (Hnew l Hl). unfold withNew in Hnew. simpl in Hnew.
      apply lookup_insert_None in Hnew. tauto.
Qed.

Lemma assignParsed_ok d s :
  ∃ s1, assignParsed d s = Ok tt s1
      ∧ wf s1
      ∧ records s1 = doc_keys d
      ∧ lastUpdated (config s1) = doc_lastUpdated d
      ∧ version (config s1) = doc_version d
      ∧ disk s1 = disk s.
Proof.
  destruct (mapM_alloc_ok (doc_keys d) s) as (ls & h' & Hrun & Hrec & Ha & _).
  exists (set_config (mkGlobalConfig ls (doc_lastUpdated d) (doc_version d))
            (set_heap h' s)).
  unfold assignParsed. munfold. by rewrite Hrun.
Qed.

Lemma migrateIfNeeded_ok e s :
  wf s → migrateIfNeeded e s = Ok tt (migrated e s).
Proof.
  intros Hwf. unfold migrateIfNeeded, migrated. munfold.
  destruct (versionMissing (config s)); [|done].
  by apply saveConfig_ok.
Qed.

Lemma wf_migrated e s : wf s → wf (migrated e s).
Proof.
  intros Hwf. unfold migrated. destruct (versionMissing _); [|done].
  by apply wf_saved.
Qed.

Lemma records_migrated e s : records (migrated e s) = records s.
Proof.
  unfold migrated. destruct (versionMissing _); [|done].
  by rewrite records_saved.
Qed.

Lemma synced_saved e s : writeOk e = true → synced (saved e s).
Proof. intros Hw. unfold synced, saved. by rewrite Hw. Qed.

Lemma synced_afterReset e s :
  writeOk e = true → synced s → synced (afterReset e s).
Proof.
  intros Hw Hs. unfold afterReset. destruct (needsReset e s); [|done].
  by apply synced_saved.
Qed.

Lemma version_afterReset e s :
  version (config (afterReset e s)) = version (config s).
Proof.
  unfold afterReset. destruct (needsReset e s); [|done].
  by rewrite version_saved.
Qed.

(** A store without records: every call of a session leaves the state as
    it is. *)
Lemma step_empty e op s : keys (config s) = [] → step e op s = s.
Proof.
  intros Hnil.
  destruct op; simpl;
    unfold afterReset, needsReset, anyStale, updateById, lookupId;
    by rewrite ?Hnil.
Qed.

Lemma steps_empty calls : ∀ s, keys (config s) = [] → steps calls s = s.
Proof.
  induction calls as [|c calls IH]; intros s Hnil; [done|].
  simpl. rewrite step_empty by done. by apply IH.
Qed.

(** *** The [catch] block of the search tool *)

Lemma afterReset_settled e s : settled (today e) s → afterReset e s = s.
Proof. unfold settled, afterReset, needsReset. by intros ->. Qed.

Lemma settled_afterReset e s : settled (today e) (afterReset e s).
Proof.
  unfold settled. rewrite keys_afterReset, heap_afterReset.
  apply anyStale_refreshAll.
Qed.

Lemma settled_records d s s' :
  records s' = records s → settled d s → settled d s'.
Proof. unfold settled, anyStale, records. by intros ->. Qed.

Lemma recordsAt_dates (h h' : gmap loc ApiKeyState) ks :
  (∀ l, lastReset <$> h' !! l = lastReset <$> h !! l) →
  lastReset <$> recordsAt h' ks = lastReset <$> recordsAt h ks.
Proof.
  intros Hd. induction ks as [|a ks IH]; [done|].
  rewrite !recordsAt_unfold. specialize (Hd a).
  destruct (h' !! a) as [k'|], (h !! a) as [k|]; simpl in Hd; try done.
  rewrite !fmap_cons, IH. by injection Hd as ->.
Qed.

Lemma records_updateAt f l s :
  (∀ k, lastReset (f k) = lastReset k) →
  lastReset <$> records (updateAt f l s) = lastReset <$> records s.
Proof.
  intros Hf. unfold records, updateAt. simpl.
  apply recordsAt_dates. intros a.
  destruct (decide (l = a)) as [->|Hne].
  - rewrite lookup_alter_eq. destruct (heap s !! a); simpl; [|done].
    by rewrite Hf.
  - by rewrite lookup_alter_ne.
Qed.

Lemma settled_dates d s s' :
  lastReset <$> records s' = lastReset <$> records s →
  settled d s → settled d s'.
Proof.
  unfold settled, anyStale, stale. intros Hd.
  assert (Hex : ∀ rs : list ApiKeyState,
            existsb (λ k, negb (lastReset k =? d)%string) rs
            = existsb (λ t, negb (t =? d)%string) (lastReset <$> rs)).
  { induction rs as [|k rs IH]; [done|]. csimpl. by rewrite IH. }
  fold (records s) (records s'). by rewrite !Hex, Hd.
Qed.

Lemma lookupId_unique (h : gmap loc ApiKeyState) ks l k :
  allocated h ks → NoDup (id <$> recordsAt h ks) →
  l ∈ ks → h !! l = Some k → lookupId (id k) h ks = Some l.
Proof.
  intros Ha Hnd Hl Hk.
  apply list_elem_of_lookup_1 in Hl as [i Hi].
  unfold lookupId.
  destruct (list_find (hasId (id k) h) ks) as [[j l']|] eqn:Hf.
  - simpl. f_equal.
    apply list_find_Some in Hf as (Hj & Hid & _).
    unfold hasId in Hid. destruct (h !! l') as [k'|] eqn:Hk'; [|done].
    simpl in Hid. injection Hid as Hid.
    assert (i = j) as ->; [|congruence].
    apply (NoDup_lookup _ i j (id k) Hnd); rewrite list_lookup_fmap.
    + by rewrite (recordsAt_lookup h ks i l Ha Hi), Hk.
    + rewrite (recordsAt_lookup h ks j l' Ha Hj), Hk'. simpl.
      by rewrite Hid.
  - apply list_find_None in Hf. rewrite Forall_forall in Hf.
    exfalso. apply (Hf l); [by eapply list_elem_of_lookup_2|].
    unfold hasId. by rewrite Hk.
Qed.



(** *** The search tool *)

Lemma eligible_qualifies k : eligible k = true ↔ qualifies k.
Proof.
  unfold eligible, qualifies. rewrite andb_true_iff, Z.ltb_lt. done.
Qed.

Lemma eligibleAt_qualifies (h : gmap loc ApiKeyState) l k :
  h !! l = Some k → eligibleAt h l ↔ qualifies k.
Proof.
  intros Hk. unfold eligibleAt. rewrite Hk. simpl.
  rewrite <- eligible_qualifies. split; [by intros [= ->]|by intros ->].
Qed.

Lemma elem_of_recordsAt (h : gmap loc ApiKeyState) ks k :
  k ∈ recordsAt h ks ↔ ∃ l, l ∈ ks ∧ h !! l = Some k.
Proof. unfold recordsAt. apply list_elem_of_omap. Qed.

Lemma recordsAt_proj {B} (f : ApiKeyState → B)
    (h h' : gmap loc ApiKeyState) ks :
  (∀ l, f <$> h' !! l = f <$> h !! l) →
  f <$> recordsAt h' ks = f <$> recordsAt h ks.
Proof.
  intros Hd. induction ks as [|a ks IH]; [done|].
  rewrite !recordsAt_unfold. specialize (Hd a).
  destruct (h' !! a) as [k'|], (h !! a) as [k|]; simpl in Hd; try done.
  rewrite !fmap_cons, IH. by injection Hd as ->.
Qed.

Lemma await_ok during : ∀ s,
  wf s → Search.await during s = Ok tt (steps during s).
Proof.
  induction during as [|c during IH]; intros s Hwf; [done|].
  simpl. rewrite perform_ok by done. by apply IH, wf_step.
Qed.

Lemma step_outside e op s l :
  l ∉ keys (config s) → heap (step e op s) !! l = heap s !! l.
Proof.
  intros Hl.
  assert (Hup : ∀ f keyId,
            heap (updateById f e keyId s) !! l = heap s !! l).
  { intros f keyId. rewrite heap_updateById.
    destruct (lookupId _ _ _) as [l0|] eqn:Hfind; [|done].
    apply lookupId_elem in Hfind. apply lookup_alter_ne. by intros ->. }
  destruct op; simpl; try done.
  - by rewrite heap_afterReset, refreshAll_lookup, decide_False.
  - by rewrite heap_afterReset, refreshAll_lookup, decide_False.
Qed.

Lemma steps_outside calls : ∀ s l,
  l ∉ keys (config s) → heap (steps calls s) !! l = heap s !! l.
Proof.
  induction calls as [|c calls IH]; intros s l Hl; [done|].
  simpl. rewrite IH by (by rewrite keys_step). by apply step_outside.
Qed.

Lemma ids_steps calls : ∀ s,
  id <$> records (steps calls s) = id <$> records s.
Proof.
  induction calls as [|c calls IH]; intros s; [done|].
  simpl. rewrite IH. unfold records. rewrite keys_step.
  apply recordsAt_proj. intros l. apply ids_step.
Qed.

Lemma readAll_ok elements : ∀ s,
  mapM Search.resultOf elements s
  = match readAll elements with
    | Some results => Ok results s
    | None => Throw JS.typeError s
    end.
Proof.
  induction elements as [|[i|] elements IH]; intros s; [done| |done].
  simpl. unfold mbind, mret, M_bind, M_ret. cbv beta. rewrite IH.
  by destruct (readAll elements).
Qed.

Lemma resultsOf_ok data s :
  Search.resultsOf data s
  = match resultList data with
    | Some results => Ok results s
    | None => Throw JS.typeError s
    end.
Proof.
  unfold Search.resultsOf, resultList.
  destruct (Search.items data); [done|apply readAll_ok|done].
Qed.


(** What [GoogleSearchConfig.getAvailableKey] hands out: a new object with
    the fields of the selected record. *)
Lemma copy_acquired e s a s1 k :
  wf s → GoogleSearchConfig.getAvailableKey e s = Ok (Some a) s1 →
  heap s1 !! a = Some k →
  ∃ l, selectAt (heap (afterReset e s)) (keys (config s)) = Some l
     ∧ heap (afterReset e s) !! l = Some k
     ∧ s1 = withNew k (afterReset e s)
     ∧ a = fresh (dom (heap (afterReset e s))).
Proof.
  intros Hwf. rewrite copy_of_selected_ok by done.
  destruct (selectAt _ _) as [l|]; [|done].
  destruct (heap (afterReset e s) !! l) as [k0|] eqn:Hk0; [|done].
  intros [= <- <-]. rewrite heap_withNew_new. intros [= ->]. by exists l.
Qed.

(** [execute] by the ways it can go: no key to hand out, a rejected call,
    a resolved call with a response that cannot be read, and a resolved
    call with its results.  The calls of the other requests take place
    between the selection and what follows the [await]. *)
Lemma execute_cases e1 e2 during api params s :
  wf s →
  match selectAt (heap (afterReset e1 s)) (keys (config s)) with
  | None =>
      Search.execute e1 e2 during api params s
      = Search.onError e2 Search.quotaExhausted (afterReset e1 s)
  | Some l =>
      ∃ k, heap (afterReset e1 s) !! l = Some k
         ∧ qualifies k
         ∧ l ∈ keys (config s)
         ∧ match api (Search.searchParams k params) with
           | Search.Rejected error =>
               Search.execute e1 e2 during api params s
               = Search.onError e2 error
                   (steps during (withNew k (afterReset e1 s)))
           | Search.Resolved response =>
               let t := updateById incUsage e2 (id k)
                          (steps during (withNew k (afterReset e1 s))) in
               match response with
               | None =>
                   Search.execute e1 e2 during api params s
                   = Search.onError e2 JS.typeError t
               | Some data =>
                   match resultList data with
                   | None =>
                       Search.execute e1 e2 during api params s
                       = Search.onError e2 JS.typeError t
                   | Some results =>
                       Search.execute e1 e2 during api params s
                       = Ok (Search.mkResponse
                               [Search.ResultText results
                                  (Search.query params)
                                  (JS.orUndefined
                                     (Search.totalResults data) "0")
                                  (JS.orUndefined
                                     (Search.searchTime data) "0")
                                  (length results) (id k)
                                  (snapshot (afterReset e2 t))]
                               false) (afterReset e2 t)
                   end
               end
           end
  end.
Proof.
  intros Hwf. pose proof (wf_afterReset e1 s Hwf) as Hwf1.
  unfold Search.execute, tryCatch, throw,
    GoogleSearchConfig.incrementUsage, GoogleSearchConfig.getQuotaStatus.
  unfold mbind, mret, M_bind, M_ret. cbv beta.
  rewrite copy_of_selected_ok by done.
  destruct (selectAt _ _) as [l|] eqn:Hsel; [|done].
  apply selectAt_Some in Hsel as (Hl & k & Hk & Hel).
  exists k. split; [done|]. split; [by apply eligible_qualifies|].
  split; [done|]. rewrite Hk. cbv beta iota.
  set (s1 := withNew k (afterReset e1 s)).
  assert (Hwfs1 : wf s1) by (by apply wf_withNew).
  rewrite (deref_ok _ k s1) by apply heap_withNew_new. cbv beta iota.
  rewrite await_ok by done. cbv beta iota.
  set (s2 := steps during s1).
  assert (Hwf2 : wf s2) by (by apply wf_steps).
  assert (Ha : heap s2 !! fresh (dom (heap (afterReset e1 s))) = Some k).
  { unfold s2. rewrite steps_outside.
    - apply heap_withNew_new.
    - by apply fresh_not_key. }
  destruct (api _) as [response|error]; [|done].
  cbv zeta. rewrite (deref_ok _ k s2) by exact Ha. cbv beta iota.
  rewrite incrementUsage_ok by done.
  set (t := updateById incUsage e2 (id k) s2).
  assert (Hwft : wf t) by (by apply wf_updateById).
  destruct response as [data|]; [|done].
  unfold Search.dataOf. unfold mret, M_ret. rewrite resultsOf_ok.
  destruct (resultList data) as [results|]; [|done].
  by rewrite getQuotaStatus_ok.
Qed.

(** *** The rotation scenario of the specification *)

(** Two keys with limit 100: the first is handed out, after 100 recorded
    calls the second, after its rejection none, and on the next day the
    first again, with its usage back at 0. *)
Example rotation_scenario :
  ∃ rs s,
    (setupKeys morning ["AIzaSyA-first"; "AIzaSyB-second"] ["cx-1"];;
     run ([(morning, Select)]
          ++ replicate 100 (morning, RecordUsage "key_1")
          ++ [(morning, Select);
              (evening, Deactivate "key_2" "Quota exceeded or 403 error");
              (evening, Select);
              (afterMidnight, Select)])) blankStore = Ok rs s
    ∧ rs !! 0%nat = Some (Key (Some 1%positive))
    ∧ rs !! 101%nat = Some (Key (Some 2%positive))
    ∧ rs !! 103%nat = Some (Key None)
    ∧ rs !! 104%nat = Some (Key (Some 1%positive))
    ∧ dailyUsage <$> records s = [0%Z; 0%Z].
Proof.
  eexists _, _. split; [vm_compute; reflexivity|]. by vm_compute.
Qed.

(** ** The claims *)

(** C1.  [getAvailableKey] first runs the day-rollover reset over all records
    (its final state is the one [resetDailyUsageIfNeeded] leaves: every
    record whose [lastReset] is not the current date has [dailyUsage = 0],
    [lastReset = today] and [isActive = true], its other fields and the
    other records are as before), then returns the first record in store
    order that is active and under its limit, or nothing when no record is;
    on a store without records it returns nothing. *)
Theorem getAvailableKey_first_eligible (e : Env) (s : State) :
  wf s →
  ∃ s', resetDailyUsageIfNeeded e s = Ok tt s'
    ∧ keys (config s') = keys (config s)
    ∧ records s'
      = (λ k, if String.eqb (lastReset k) (today e) then k
              else mkApiKeyState (id k) (apiKey k) (searchEngineId k)
                     0 (dailyLimit k) (today e) true) <$> records s
    ∧ ((∃ i l k, getAvailableKey e s = Ok (Some l) s'
          ∧ keys (config s') !! i = Some l
          ∧ heap s' !! l = Some k
          ∧ records s' !! i = Some k
          ∧ qualifies k
          ∧ ∀ j k', (j < i)%nat → records s' !! j = Some k' → ¬ qualifies k')
       ∨ (getAvailableKey e s = Ok None s'
          ∧ ∀ k, k ∈ records s' → ¬ qualifies k))
    ∧ (keys (config s) = [] → getAvailableKey e s = Ok None s).
Proof.
  intros Hwf. exists (afterReset e s).
  pose proof (wf_afterReset e s Hwf) as Hwf'.
  split; [by apply resetDailyUsageIfNeeded_ok|].
  split; [apply keys_afterReset|].
  split.
  { rewrite records_afterReset. apply list_fmap_ext. intros i k _.
    unfold refresh, stale, resetKey.
    by destruct (String.eqb (lastReset k) (today e)). }
  rewrite getAvailableKey_ok by done. split.
  - unfold selectAt.
    destruct (list_find _ _) as [[i l]|] eqn:Hf; simpl.
    + left. apply list_find_Some in Hf as (Hi & Hel & Hbefore).
      assert (is_Some (heap (afterReset e s) !! l)) as [k Hk].
      { eapply allocated_lookup; [exact Hwf'|].
        rewrite keys_afterReset. by eapply list_elem_of_lookup_2. }
      exists i, l, k. rewrite keys_afterReset.
      split; [done|]. split; [done|]. split; [done|].
      assert (Hrec : ∀ j l', keys (config s) !! j = Some l' →
                records (afterReset e s) !! j = heap (afterReset e s) !! l').
      { intros j l' Hj. unfold records. apply recordsAt_lookup; [done|].
        by rewrite keys_afterReset. }
      split; [by rewrite (Hrec _ _ Hi)|].
      split; [by apply (eligibleAt_qualifies _ _ _ Hk)|].
      intros j k' Hj Hk' Hq.
      destruct (lookup_lt_is_Some_2 (keys (config s)) j) as [l' Hl'].
      { apply lookup_lt_Some in Hi. lia. }
      rewrite (Hrec _ _ Hl') in Hk'.
      apply (Hbefore j l' Hl' Hj). by apply (eligibleAt_qualifies _ _ _ Hk').
    + right. split; [done|]. apply list_find_None in Hf.
      rewrite Forall_forall in Hf.
      intros k (l & Hl & Hk)%elem_of_recordsAt Hq.
      rewrite keys_afterReset in Hl.
      apply (Hf l Hl). by apply (eligibleAt_qualifies _ _ _ Hk).
  - intros Hnil. unfold afterReset, needsReset, selectAt, anyStale.
    by rewrite Hnil.
Qed.

Lemma getAvailableKey_first_eligible_witness :
  wf staleStore
  ∧ records staleStore = [staleKey]
  ∧ ∃ s', resetDailyUsageIfNeeded morning staleStore = Ok tt s'
        ∧ keys (config s') = keys (config staleStore)
        ∧ records s'
          = [mkApiKeyState "key_1" "AIzaSyA-first" "cx-first"
               0 100 "2024-05-02" true].
Proof.
  assert (Hwf : wf staleStore) by solve_wf.
  split; [exact Hwf|]. split; [reflexivity|].
  destruct (getAvailableKey_first_eligible morning staleStore Hwf)
    as (s' & Hreset & Hkeys & Hrecords & _).
  exists s'. split; [exact Hreset|]. split; [exact Hkeys|exact Hrecords].
Defined.






(** C6.  [getQuotaStatus] leaves the store in the state the day-rollover
    reset leaves it in, and reports on the records of that state: the sum of
    their [dailyUsage], the sum of their [dailyLimit], and one entry per
    record in store order with [remaining = limit - used].  Between the old
    and the new records only [dailyUsage], [lastReset] and [isActive] may
    differ, and a record of the current day is unchanged. *)
Theorem getQuotaStatus_totals (e : Env) (s : State) :
  wf s →
  ∃ q s',
    getQuotaStatus e s = Ok q s'
    ∧ resetDailyUsageIfNeeded e s = Ok tt s'
    ∧ totalUsed q = sumZ (dailyUsage <$> records s')
    ∧ totalLimit q = sumZ (dailyLimit <$> records s')
    ∧ keysStatus q
      = (λ k, mkKeyStatus (id k) (dailyUsage k) (dailyLimit k)
                (dailyLimit k - dailyUsage k) (isActive k)) <$> records s'
    ∧ length (records s') = length (records s)
    ∧ ∀ i k k', records s !! i = Some k → records s' !! i = Some k' →
        id k' = id k ∧ apiKey k' = apiKey k
        ∧ searchEngineId k' = searchEngineId k
        ∧ dailyLimit k' = dailyLimit k
        ∧ (lastReset k = today e → k' = k).
Proof.
  intros Hwf. exists (snapshot (afterReset e s)), (afterReset e s).
  split; [by apply getQuotaStatus_ok|].
  split; [by apply resetDailyUsageIfNeeded_ok|].
  repeat (split; [done|]).
  rewrite records_afterReset. split; [by rewrite length_fmap|].
  intros i k k' Hk. rewrite list_lookup_fmap, Hk. simpl. intros [= <-].
  unfold refresh. destruct (stale (today e) k) eqn:Hst; simpl.
  - repeat (split; [done|]). intros Hd. unfold stale in Hst.
    by rewrite Hd, String.eqb_refl in Hst.
  - done.
Qed.

Lemma getQuotaStatus_totals_witness :
  wf dayStore
  ∧ ∃ q s', getQuotaStatus morning dayStore = Ok q s'
          ∧ totalUsed q = sumZ (dailyUsage <$> records s')
          ∧ totalLimit q = sumZ (dailyLimit <$> records s').
Proof.
  assert (Hwf : wf dayStore) by solve_wf.
  split; [exact Hwf|].
  destruct (getQuotaStatus_totals morning dayStore Hwf)
    as (q & s' & Hq & _ & Hused & Hlimit & _).
  exists q, s'. split; [exact Hq|]. split; [exact Hused|exact Hlimit].
Defined.

(** C9.  Two calls of [getQuotaStatus] in a row on the same calendar day
    return the same value, and the second leaves the state the first one
    left. *)
Theorem getQuotaStatus_idempotent (e1 e2 : Env) (s : State) :
  wf s → today e2 = today e1 →
  ∃ q s1, getQuotaStatus e1 s = Ok q s1 ∧ getQuotaStatus e2 s1 = Ok q s1.
Proof.
  intros Hwf Hd. exists (snapshot (afterReset e1 s)), (afterReset e1 s).
  split; [by apply getQuotaStatus_ok|].
  rewrite getQuotaStatus_ok by (by apply wf_afterReset).
  by rewrite afterReset_again.
Qed.

Lemma getQuotaStatus_idempotent_witness :
  wf staleStore ∧ today evening = today morning
  ∧ ∃ q s1, getQuotaStatus morning staleStore = Ok q s1
          ∧ getQuotaStatus evening s1 = Ok q s1.
Proof.
  assert (Hwf : wf staleStore) by solve_wf.
  assert (Hd : today evening = today morning) by reflexivity.
  split; [exact Hwf|]. split; [exact Hd|].
  exact (getQuotaStatus_idempotent morning evening staleStore Hwf Hd).
Defined.

(** C8.  With an id that no record of the store has, [incrementUsage] and
    [disableKey] return normally and leave the whole state as it is.  With an
    id that a record has, they return normally; [incrementUsage] adds one to
    the [dailyUsage] of the first record with that id and [disableKey] sets
    its [isActive] to false, no other field of it and no other object
    changes, and the store holds the same records in the same order. *)
Theorem update_by_id (e : Env) (keyId reason : string) (s : State) :
  wf s →
  ((∀ k, k ∈ records s → id k ≠ keyId) →
     incrementUsage e keyId s = Ok tt s
     ∧ disableKey e keyId reason s = Ok tt s)
  ∧ ((∃ k, k ∈ records s ∧ id k = keyId) →
     ∃ l k s1 s2,
       l ∈ keys (config s) ∧ heap s !! l = Some k ∧ id k = keyId
       ∧ incrementUsage e keyId s = Ok tt s1
       ∧ heap s1 !! l
         = Some (mkApiKeyState (id k) (apiKey k) (searchEngineId k)
                   (dailyUsage k + 1) (dailyLimit k) (lastReset k)
                   (isActive k))
       ∧ (∀ l', l' ≠ l → heap s1 !! l' = heap s !! l')
       ∧ keys (config s1) = keys (config s)
       ∧ disableKey e keyId reason s = Ok tt s2
       ∧ heap s2 !! l
         = Some (mkApiKeyState (id k) (apiKey k) (searchEngineId k)
                   (dailyUsage k) (dailyLimit k) (lastReset k) false)
       ∧ (∀ l', l' ≠ l → heap s2 !! l' = heap s !! l')
       ∧ keys (config s2) = keys (config s)).
Proof.
  intros Hwf. rewrite incrementUsage_ok, disableKey_ok by done. split.
  - intros Habsent.
    assert (Hnone : lookupId keyId (heap s) (keys (config s)) = None).
    { destruct (lookupId _ _ _) as [l|] eqn:Hl; [|done].
      apply lookupId_Some in Hl as (i & k & Hi & Hk & Hid & _).
      exfalso. apply (Habsent k); [|done].
      apply elem_of_recordsAt. exists l.
      split; [by eapply list_elem_of_lookup_2|done]. }
    unfold updateById. by rewrite Hnone.
  - intros (k0 & (l0 & Hl0 & Hk0)%elem_of_recordsAt & Hid0).
    destruct (lookupId keyId (heap s) (keys (config s))) as [l|] eqn:Hl.
    + pose proof Hl as (i & k & Hi & Hk & Hid & _)%lookupId_Some.
      exists l, k, (updateById incUsage e keyId s),
             (updateById deactivated e keyId s).
      rewrite !keys_updateById, !heap_updateById, Hl, !lookup_alter_eq, Hk.
      split; [by eapply list_elem_of_lookup_2|].
      repeat (split; [done|]).
      split; [by intros l' Hne; rewrite lookup_alter_ne|].
      repeat (split; [done|]).
      split; [by intros l' Hne; rewrite lookup_alter_ne|done].
    + exfalso. by apply (lookupId_None _ _ _ _ _ Hl Hl0 Hk0).
Qed.

Lemma update_by_id_witness :
  wf dayStore
  ∧ (incrementUsage morning "key_9" dayStore = Ok tt dayStore
     ∧ disableKey morning "key_9" "403" dayStore = Ok tt dayStore).
Proof.
  assert (Hwf : wf dayStore) by solve_wf.
  split; [exact Hwf|].
  apply (update_by_id morning "key_9" "403" dayStore Hwf).
  intros k Hk. apply elem_of_recordsAt in Hk as (l & Hl & Hk).
  simpl in Hl. apply elem_of_cons in Hl as [->|Hl].
  - vm_compute in Hk. injection Hk as <-. discriminate.
  - apply elem_of_cons in Hl as [->|Hl].
    + vm_compute in Hk. injection Hk as <-. discriminate.
    + by apply elem_of_nil in Hl.
Defined.

(** C10.  Where [GlobalConfigManager.getAvailableKey] returns a record [l]
    of the store, [GoogleSearchConfig.getAvailableKey] returns a new object
    [c] with the field values of [l]: [c] is not [l], is not among the
    records of the store and did not exist before; the store itself is as
    the inner call left it.  Whatever is written to [c] afterwards, every
    record of the store stays as it was. *)
Theorem getAvailableKey_returns_copy (e : Env) (s : State) :
  wf s →
  ∃ r s1,
    GlobalConfigManager.getAvailableKey e s = Ok r s1
    ∧ match r with
      | None => GoogleSearchConfig.getAvailableKey e s = Ok None s1
      | Some l =>
          ∃ k c s2,
            GoogleSearchConfig.getAvailableKey e s = Ok (Some c) s2
            ∧ l ∈ keys (config s1)
            ∧ heap s1 !! l = Some k
            ∧ heap s2 !! c = Some k
            ∧ c ≠ l
            ∧ (c ∉ keys (config s2))
            ∧ heap s1 !! c = None
            ∧ config s2 = config s1
            ∧ disk s2 = disk s1
            ∧ (∀ l', l' ≠ c → heap s2 !! l' = heap s1 !! l')
            ∧ ∀ k',
                records (set_heap (<[c := k']> (heap s2)) s2) = records s1
                ∧ ∀ l', l' ∈ keys (config s1) →
                    <[c := k']> (heap s2) !! l' = heap s1 !! l'
      end.
Proof.
  intros Hwf. pose proof (wf_afterReset e s Hwf) as Hwf1.
  exists (selectAt (heap (afterReset e s)) (keys (config s))),
         (afterReset e s).
  split; [by apply getAvailableKey_ok|].
  rewrite copy_of_selected_ok by done.
  destruct (selectAt _ _) as [l|] eqn:Hsel; [|done].
  apply selectAt_Some in Hsel as (Hl & k & Hk & _).
  rewrite <- (keys_afterReset e s) in Hl.
  set (s1 := afterReset e s) in *. set (c := fresh (dom (heap s1))).
  assert (Hc : c ∉ keys (config s1)) by (by apply fresh_not_key).
  exists k, c, (withNew k s1). rewrite Hk.
  split; [done|]. split; [done|]. split; [done|].
  split; [apply heap_withNew_new|].
  split; [by intros ->|]. split; [done|].
  split; [apply fresh_None|]. split; [done|]. split; [done|].
  split; [by intros l' Hne; apply heap_withNew_old|].
  intros k'.
  assert (Hkeep : ∀ l', l' ∈ keys (config s1) →
            <[c := k']> (heap (withNew k s1)) !! l' = heap s1 !! l').
  { intros l' Hl'. rewrite lookup_insert_ne by (by intros ->).
    by apply heap_withNew_key. }
  split; [|exact Hkeep].
  unfold records. simpl. by apply recordsAt_ext.
Qed.

Lemma getAvailableKey_returns_copy_witness :
  wf dayStore
  ∧ ∃ s2, GoogleSearchConfig.getAvailableKey morning dayStore
          = Ok (Some 3%positive) s2
        ∧ heap s2 !! 3%positive = Some openKey
        ∧ 3%positive ∉ keys (config s2).
Proof.
  assert (Hwf : wf dayStore) by solve_wf.
  split; [exact Hwf|].
  destruct (getAvailableKey_returns_copy morning dayStore Hwf)
    as (r & s1 & Hinner & Hcopy).
  vm_compute in Hinner. injection Hinner as <- <-.
  destruct Hcopy as (k & c & s2 & Hget & _ & Hk & Hc & _ & Hnot & _).
  vm_compute in Hk. injection Hk as <-.
  assert (Hc3 : Some c = Some 3%positive).
  { vm_compute in Hget. by injection Hget as <- _. }
  injection Hc3 as ->.
  exists s2. split; [exact Hget|]. split; [exact Hc|exact Hnot].
Defined.

(** C5 as the claim states it fails: the scope ids are trimmed, and a scope
    id that is empty after trimming is replaced by the first one. *)
Lemma setupKeys_trims_scope_ids :
  ∃ s', setupKeys morning ["AIzaSyA-first"; "AIzaSyB-second"]
                  [" cx-1 "; "  "] blankStore = Ok tt s'
      ∧ searchEngineId <$> records s' = ["cx-1"; "cx-1"]
      ∧ positionalScopeId [" cx-1 "; "  "] 0 = " cx-1 "
      ∧ positionalScopeId [" cx-1 "; "  "] 1 = "  ".
Proof.
  eexists. split; [vm_compute; reflexivity|]. by vm_compute.
Qed.

Lemma truthy_false s : JS.truthy s = false → s = "".
Proof. by destruct s. Qed.

(** C5, amended.  [setupKeys] with k keys returns normally and leaves a
    store of exactly k records, all of them new objects (no record that
    existed before is among them), in input order.  Record i has the id
    [key_] followed by the decimal i+1, the trimmed key, and as search
    engine id the trimmed id at position i when there is one and it is not
    empty after trimming, else the trimmed first id, else the empty string;
    [dailyUsage = 0], [dailyLimit = 100], [lastReset] the current date and
    [isActive = true]. *)
Theorem setupKeys_creates_records (e : Env)
    (apiKeys searchEngineIds : list string) (s : State) :
  ∃ s',
    setupKeys e apiKeys searchEngineIds s = Ok tt s'
    ∧ wf s'
    ∧ length (keys (config s')) = length apiKeys
    ∧ length (records s') = length apiKeys
    ∧ (∀ l, l ∈ keys (config s') → heap s !! l = None)
    ∧ ∀ i a, apiKeys !! i = Some a →
        ∃ k, records s' !! i = Some k
           ∧ id k = "key_" +:+ pretty (i + 1)%nat
           ∧ apiKey k = JS.trim a
           ∧ searchEngineId k
             = (let first := match searchEngineIds !! 0%nat with
                             | Some y => JS.trim y
                             | None => ""
                             end in
                match searchEngineIds !! i with
                | Some x => if JS.truthy (JS.trim x) then JS.trim x else first
                | None => first
                end)
           ∧ dailyUsage k = 0%Z
           ∧ dailyLimit k = 100%Z
           ∧ lastReset k = today e
           ∧ isActive k = true.
Proof.
  set (s0 := set_config (set_keys [] (config s)) s).
  assert (Hwf0 : wf s0) by constructor.
  destruct (setupLoop_ok e apiKeys searchEngineIds (length apiKeys) 0 s0)
    as (s1 & Hrun & Hwf1 & Hrec & (new & Hkeys & Hnew) & _);
    [done|done|].
  exists (saved e s1). split.
  { unfold setupKeys. munfold. fold s0. rewrite Hrun.
    by apply saveConfig_ok. }
  simpl in Hrec, Hkeys. rewrite drop_0 in Hrec.
  assert (Hlen : length (records s1) = length apiKeys)
    by (by rewrite Hrec, length_imap).
  rewrite keys_saved, records_saved.
  split; [by apply wf_saved|].
  split; [by rewrite <- Hlen; unfold records; rewrite recordsAt_length|].
  split; [done|].
  split; [by intros l Hl; apply Hnew; rewrite <- Hkeys|].
  intros i a Ha. exists (createdKey e searchEngineIds i a).
  split; [by rewrite Hrec, list_lookup_imap, Ha|].
  simpl. repeat (split; [done|]). split; [|done].
  unfold scopeIdFor, JS.orUndefined, JS.orElse.
  assert (Hfirst : match JS.trim <$> searchEngineIds !! 0%nat with
                   | Some y => if JS.truthy y then y else ""
                   | None => ""
                   end
                   = match searchEngineIds !! 0%nat with
                     | Some y => JS.trim y
                     | None => ""
                     end).
  { destruct (searchEngineIds !! 0%nat) as [y|]; simpl; [|done].
    destruct (JS.truthy (JS.trim y)) eqn:Hy; [done|].
    by rewrite (truthy_false _ Hy). }
  rewrite Hfirst. by destruct (searchEngineIds !! i).
Qed.

(** C7.  [loadConfig] returns normally whatever the file holds.  When the
    file is absent, cannot be read or does not parse, the store has no
    records and version 1.0.0, the file is as it was, and no call of a later
    session other than [setupKeys] changes the state, the file included.
    When the file parses, the records are those of the file after the
    day-rollover reset; if it has no version property, the version is set
    to 1.0.0 and the file then holds the store as loaded, provided the write
    goes through. *)
Theorem loadConfig_never_fails (e : Env) (s : State) :
  ∃ s',
    loadConfig e s = Ok tt s'
    ∧ wf s'
    ∧ ((disk s = None ∨ (∃ raw, disk s = Some (Unparsable raw))
        ∨ (is_Some (disk s) ∧ readOk e = false)) →
       keys (config s') = []
       ∧ version (config s') = Some "1.0.0"
       ∧ disk s' = disk s
       ∧ ∀ calls, ∃ rs, Session.run calls s' = Ok rs s')
    ∧ (∀ d, disk s = Some (Json d) → readOk e = true →
       records s' = refresh (today e) <$> doc_keys d
       ∧ (doc_version d = None →
          version (config s') = Some "1.0.0"
          ∧ (writeOk e = true →
             disk s' = Some (Json (mkDocument (records s') (now e)
                                              (Some "1.0.0")))))).
Proof.
  assert (Hempty : ∀ s0, disk s0 = disk s →
    let s' := set_config (emptyConfig e) s0 in
    keys (config s') = [] ∧ version (config s') = Some "1.0.0"
    ∧ disk s' = disk s
    ∧ ∀ calls, ∃ rs, Session.run calls s' = Ok rs s').
  { intros s0 Hd s'. repeat (split; [done|]). intros calls.
    exists (replies calls s').
    rewrite run_ok by constructor. by rewrite steps_empty. }
  unfold loadConfig, tryCatch, existsSync, readFileSync, parse, throw.
  unfold mbind, mret, M_bind, M_ret. cbv beta.
  destruct (disk s) as [[raw|d]|] eqn:Hdisk;
    cbv beta iota; rewrite ?Hdisk; cbv beta iota.
  - (* the file does not parse *)
    exists (set_config (emptyConfig e) s).
    split; [by destruct (readOk e)|]. split; [constructor|].
    split; [by intros _; apply Hempty|]. by intros d [=].
  - (* the file parses *)
    destruct (readOk e) eqn:Hread; cbv beta iota.
    + destruct (assignParsed_ok d s)
        as (s1 & Hrun & Hwf1 & Hrec1 & _ & Hv1 & _).
      pose proof (wf_migrated e s1 Hwf1) as Hwf2.
      exists (afterReset e (migrated e s1)). split.
      { rewrite Hrun, migrateIfNeeded_ok by done.
        by rewrite resetDailyUsageIfNeeded_ok. }
      split; [by apply wf_afterReset|].
      split.
      { intros [[=]|[(raw & [=])|[_ [=]]]]. }
      intros d' [= <-] _.
      split; [by rewrite records_afterReset, records_migrated, Hrec1|].
      intros Hnone.
      assert (Hmig : migrated e s1
                = saved e (set_config (set_version currentVersion (config s1))
                             s1)).
      { unfold migrated, versionMissing. by rewrite Hv1, Hnone. }
      split.
      { by rewrite version_afterReset, Hmig, version_saved. }
      intros Hw.
      assert (Hsync : synced (afterReset e (migrated e s1))).
      { apply synced_afterReset; [done|]. rewrite Hmig.
        by apply synced_saved. }
      unfold synced in Hsync. rewrite Hsync. unfold document.
      do 3 f_equal.
      * unfold afterReset. destruct (needsReset e _); rewrite ?Hmig;
          unfold saved; by rewrite Hw.
      * by rewrite version_afterReset, Hmig, version_saved.
    + (* the read fails *)
      exists (set_config (emptyConfig e) s).
      split; [done|]. split; [constructor|].
      split; [by intros _; apply Hempty|]. by intros d' _ [=].
  - (* no file *)
    exists (set_config (emptyConfig e) s).
    split; [done|]. split; [constructor|].
    split; [by intros _; apply Hempty|]. by intros d [=].
Qed.





(** ** Further properties of the code *)

(** *** Invariants of the records *)

Lemma Forall_recordsAt (P : ApiKeyState → Prop)
    (h : gmap loc ApiKeyState) ks :
  Forall P (recordsAt h ks) ↔ ∀ l k, l ∈ ks → h !! l = Some k → P k.
Proof.
  rewrite Forall_forall. split.
  - intros HP l k Hl Hk. apply HP, elem_of_recordsAt. eauto.
  - intros HP k (l & Hl & Hk)%elem_of_recordsAt. eauto.
Qed.

Lemma fixed_afterReset e s l :
  fixedFields <$> heap (afterReset e s) !! l = fixedFields <$> heap s !! l.
Proof.
  rewrite heap_afterReset, refreshAll_lookup.
  case_decide; [|done]. destruct (heap s !! l) as [k|]; [|done].
  simpl. unfold refresh. by destruct (stale _ k).
Qed.

Lemma fixed_updateById f e keyId s l :
  (∀ k, fixedFields (f k) = fixedFields k) →
  fixedFields <$> heap (updateById f e keyId s) !! l
  = fixedFields <$> heap s !! l.
Proof.
  intros Hf. rewrite heap_updateById.
  destruct (lookupId _ _ _) as [l0|]; [|done].
  destruct (decide (l0 = l)) as [->|Hne].
  - rewrite lookup_alter_eq. destruct (heap s !! l); [|done].
    simpl. by rewrite Hf.
  - by rewrite lookup_alter_ne.
Qed.

Lemma fixed_step e op s l :
  fixedFields <$> heap (step e op s) !! l = fixedFields <$> heap s !! l.
Proof.
  destruct op; simpl;
    auto using fixed_afterReset; by apply fixed_updateById.
Qed.

Lemma fixed_steps calls : ∀ s,
  fixedFields <$> records (steps calls s) = fixedFields <$> records s.
Proof.
  induction calls as [|c calls IH]; intros s; [done|].
  simpl. rewrite IH. unfold records. rewrite keys_step.
  apply recordsAt_proj. intros l. apply fixed_step.
Qed.

Lemma all_afterReset P e s :
  stable P → Forall P (records s) → Forall P (records (afterReset e s)).
Proof.
  intros [Hreset _] HP. rewrite records_afterReset. apply Forall_fmap.
  eapply Forall_impl; [exact HP|]. intros k Hk. simpl. unfold refresh.
  destruct (stale _ k); eauto.
Qed.

Lemma all_updateAt P f l s :
  (∀ k, l ∈ keys (config s) → heap s !! l = Some k → P k → P (f k)) →
  Forall P (records s) → Forall P (records (updateAt f l s)).
Proof.
  unfold records. rewrite !Forall_recordsAt. intros Hf HP l' k Hl'.
  unfold updateAt. simpl.
  destruct (decide (l = l')) as [<-|Hne].
  - rewrite lookup_alter_eq. destruct (heap s !! l) as [k0|] eqn:Hk0; [|done].
    simpl. intros [= <-]. eauto.
  - rewrite lookup_alter_ne by done. by apply HP.
Qed.

Lemma all_updateById P f e keyId s :
  (∀ l k, lookupId keyId (heap s) (keys (config s)) = Some l →
          heap s !! l = Some k → P k → P (f k)) →
  Forall P (records s) → Forall P (records (updateById f e keyId s)).
Proof.
  intros Hf HP. unfold updateById.
  destruct (lookupId _ _ _) as [l|] eqn:Hl; [|done].
  rewrite records_saved. apply all_updateAt; eauto.
Qed.

Lemma all_step P e op s :
  stable P → (∀ k, P k → P (incUsage k)) →
  Forall P (records s) → Forall P (records (step e op s)).
Proof.
  intros Hst Hinc HP. destruct op; simpl; [| | | |done].
  - by apply all_afterReset.
  - apply all_updateById; eauto.
  - apply all_updateById; [|done]. intros. by apply Hst.
  - by apply all_afterReset.
Qed.

Lemma all_steps P calls : ∀ s,
  stable P → (∀ k, P k → P (incUsage k)) →
  Forall P (records s) → Forall P (records (steps calls s)).
Proof.
  induction calls as [|c calls IH]; intros s Hst Hinc HP; [done|].
  simpl. by apply IH, all_step.
Qed.

Lemma stable_nonneg : stable (λ k, (0 ≤ dailyUsage k)%Z).
Proof. split; simpl; intros; lia. Qed.

Lemma stable_inBudget : stable inBudget.
Proof. unfold inBudget. split; simpl; intros; lia. Qed.

Lemma stable_True : stable (λ _, True).
Proof. by split. Qed.

(** X1.  A session (any calls of [getAvailableKey], [incrementUsage],
    [disableKey], [getQuotaStatus], [hasValidConfig]) returns normally and
    never adds, removes or reorders records; the id, key, search engine id
    and limit of every record stay as they are. *)
Theorem session_keeps_records (calls : list (Env * Session.Op)) (s : State) :
  wf s →
  ∃ rs s',
    Session.run calls s = Ok rs s'
    ∧ wf s'
    ∧ length rs = length calls
    ∧ keys (config s') = keys (config s)
    ∧ fixedFields <$> records s' = fixedFields <$> records s.
Proof.
  intros Hwf. exists (replies calls s), (steps calls s).
  split; [by apply run_ok|]. split; [by apply wf_steps|].
  split.
  { clear Hwf. revert s. induction calls as [|c calls IH]; intros s; [done|].
    simpl. by rewrite IH. }
  split; [apply keys_steps|apply fixed_steps].
Qed.

Lemma session_keeps_records_witness :
  wf nearlySpentStore
  ∧ ∃ rs s',
      Session.run usageSession nearlySpentStore = Ok rs s'
      ∧ keys (config s') = keys (config nearlySpentStore)
      ∧ fixedFields <$> records s' = fixedFields <$> records nearlySpentStore.
Proof.
  assert (Hwf : wf nearlySpentStore) by solve_wf.
  split; [exact Hwf|].
  destruct (session_keeps_records usageSession nearlySpentStore Hwf)
    as (rs & s' & Hrun & _ & _ & Hkeys & Hfixed).
  exists rs, s'. split; [exact Hrun|]. split; [exact Hkeys|exact Hfixed].
Defined.

(** X2.  No session makes a usage counter negative: when every record has
    [dailyUsage >= 0] before, every record has it after. *)
Theorem session_keeps_usage_nonnegative
    (calls : list (Env * Session.Op)) (s : State) :
  wf s →
  Forall (λ k, (0 ≤ dailyUsage k)%Z) (records s) →
  ∃ rs s',
    Session.run calls s = Ok rs s'
    ∧ Forall (λ k, (0 ≤ dailyUsage k)%Z) (records s').
Proof.
  intros Hwf Hnn. exists (replies calls s), (steps calls s).
  split; [by apply run_ok|].
  apply all_steps; [apply stable_nonneg| |done]. simpl. intros. lia.
Qed.

Lemma session_keeps_usage_nonnegative_witness :
  wf nearlySpentStore
  ∧ Forall (λ k, (0 ≤ dailyUsage k)%Z) (records nearlySpentStore)
  ∧ ∃ rs s',
      Session.run usageSession nearlySpentStore = Ok rs s'
      ∧ Forall (λ k, (0 ≤ dailyUsage k)%Z) (records s').
Proof.
  assert (Hwf : wf nearlySpentStore) by solve_wf.
  assert (Hnn : Forall (λ k, (0 ≤ dailyUsage k)%Z) (records nearlySpentStore)).
  { repeat constructor; by vm_compute. }
  split; [exact Hwf|]. split; [exact Hnn|].
  exact (session_keeps_usage_nonnegative usageSession nearlySpentStore Hwf Hnn).
Defined.

(** *** The store after [setupKeys] *)

Lemma setupKeys_ok e apiKeys searchEngineIds s :
  ∃ s', setupKeys e apiKeys searchEngineIds s = Ok tt s'
      ∧ wf s'
      ∧ records s' = imap (createdKey e searchEngineIds) apiKeys.
Proof.
  set (s0 := set_config (set_keys [] (config s)) s).
  assert (Hwf0 : wf s0) by constructor.
  destruct (setupLoop_ok e apiKeys searchEngineIds (length apiKeys) 0 s0)
    as (s1 & Hrun & Hwf1 & Hrec & _); [done|done|].
  exists (saved e s1). split.
  { unfold setupKeys. munfold. fold s0. rewrite Hrun.
    by apply saveConfig_ok. }
  split; [by apply wf_saved|].
  rewrite records_saved, Hrec. simpl. by rewrite drop_0.
Qed.

Lemma key_id_inj (i j : nat) :
  "key_" +:+ pretty (i + 1)%nat = "key_" +:+ pretty (j + 1)%nat → i = j.
Proof.
  intros H. simpl in H. injection H as H.
  apply pretty_nat_inj in H. lia.
Qed.

Lemma createdKey_ids_NoDup e searchEngineIds apiKeys :
  NoDup (id <$> imap (createdKey e searchEngineIds) apiKeys).
Proof.
  apply NoDup_alt. intros i j x.
  rewrite !list_lookup_fmap, !list_lookup_imap.
  destruct (apiKeys !! i) as [a|]; [|done].
  destruct (apiKeys !! j) as [b|]; [|done].
  intros Hi Hj. apply key_id_inj. simpl in *. congruence.
Qed.

Lemma qualifies_refresh_created d e searchEngineIds i a :
  qualifies (refresh d (createdKey e searchEngineIds i a)).
Proof. unfold qualifies, refresh. by destruct (stale d _). Qed.

Lemma selectAt_head (h : gmap loc ApiKeyState) l ks :
  eligibleAt h l → selectAt h (l :: ks) = Some l.
Proof. intros Hel. unfold selectAt. simpl. by rewrite decide_True. Qed.

(** X3.  [setupKeys] leaves a store in its initial condition: one record
    per key, the ids pairwise different, every record active with usage 0,
    limit 100 and the date of the day, and the next [getAvailableKey], on
    whatever day, returns the first record, [key_1], with usage 0 of 100
    (nothing when no key was given). *)
Theorem setupKeys_initial_state (e : Env)
    (apiKeys searchEngineIds : list string) (s : State) :
  ∃ s',
    setupKeys e apiKeys searchEngineIds s = Ok tt s'
    ∧ length (records s') = length apiKeys
    ∧ NoDup (id <$> records s')
    ∧ Forall (λ k, dailyUsage k = 0%Z ∧ dailyLimit k = 100%Z
                   ∧ isActive k = true ∧ lastReset k = today e)
        (records s')
    ∧ Forall qualifies (records s')
    ∧ Forall inBudget (records s')
    ∧ ∀ e', ∃ r s'',
        GlobalConfigManager.getAvailableKey e' s' = Ok r s''
        ∧ match apiKeys with
          | [] => r = None
          | _ :: _ =>
              ∃ l k, r = Some l
                   ∧ keys (config s'') !! 0%nat = Some l
                   ∧ heap s'' !! l = Some k
                   ∧ id k = "key_1"
                   ∧ dailyUsage k = 0%Z
                   ∧ dailyLimit k = 100%Z
                   ∧ isActive k = true
          end.
Proof.
  destruct (setupKeys_ok e apiKeys searchEngineIds s)
    as (s' & Hrun & Hwf & Hrec).
  exists s'. split; [done|]. rewrite Hrec.
  split; [by rewrite length_imap|].
  split; [apply createdKey_ids_NoDup|].
  assert (Hall : ∀ P : ApiKeyState → Prop,
            (∀ i a, P (createdKey e searchEngineIds i a)) →
            Forall P (imap (createdKey e searchEngineIds) apiKeys)).
  { intros P HP. apply Forall_forall.
    intros k (i & a & -> & _)%elem_of_lookup_imap. apply HP. }
  split; [by apply Hall|]. split; [by apply Hall|]. split; [by apply Hall|].
  intros e'. pose proof (wf_afterReset e' s' Hwf) as Hwf'.
  exists (selectAt (heap (afterReset e' s')) (keys (config s'))),
         (afterReset e' s').
  split; [by apply getAvailableKey_ok|].
  destruct apiKeys as [|a rest].
  - assert (Hnil : keys (config s') = []).
    { apply length_zero_iff_nil.
      pose proof (recordsAt_length _ _ Hwf) as Hlen.
      fold (records s') in Hlen. by rewrite <- Hlen, Hrec. }
    by rewrite Hnil.
  - destruct (keys (config s')) as [|l ks] eqn:Hkeys.
    { pose proof (recordsAt_length _ _ Hwf) as Hlen.
      fold (records s') in Hlen. by rewrite Hkeys, Hrec in Hlen. }
    assert (Hl : records (afterReset e' s') !! 0%nat
                 = heap (afterReset e' s') !! l).
    { unfold records. apply recordsAt_lookup; [done|].
      by rewrite keys_afterReset, Hkeys. }
    rewrite records_afterReset, Hrec in Hl. simpl in Hl.
    set (k := refresh (today e') (createdKey e searchEngineIds 0 a)) in *.
    assert (Hq : qualifies k) by apply qualifies_refresh_created.
    rewrite selectAt_head
      by (by eapply eligibleAt_qualifies).
    exists l, k. rewrite keys_afterReset, Hkeys.
    split; [done|]. split; [done|]. split; [done|].
    unfold k, refresh. by destruct (stale _ _).
Qed.

(** *** [hasValidConfig] and the constructors *)

Lemma truthy_true s : JS.truthy s = true ↔ s ≠ "".
Proof. by destruct s. Qed.

(** X4.  [hasValidConfig] answers true exactly when some record of the
    store has both a non-empty key and a non-empty search engine id (the
    test of [keys.length > 0] adds nothing), and it changes nothing. *)
Theorem hasValidConfig_iff (s : State) :
  wf s →
  ∃ b, hasValidConfig s = Ok b s
     ∧ (b = true ↔ ∃ k, k ∈ records s
                        ∧ apiKey k ≠ "" ∧ searchEngineId k ≠ "").
Proof.
  intros Hwf. exists (usable s). split; [by apply hasValidConfig_ok|].
  unfold usable. rewrite andb_true_iff, existsb_exists. split.
  - intros (_ & k & Hin & Hk). apply andb_true_iff in Hk as [Ha Hs].
    exists k. rewrite <- !truthy_true. by rewrite list_elem_of_In.
  - intros (k & Hin & Ha & Hs). split.
    + apply Nat.ltb_lt. rewrite <- (recordsAt_length _ _ Hwf).
      fold (records s). destruct (records s); [|simpl; lia].
      by apply elem_of_nil in Hin.
    + exists k. rewrite <- list_elem_of_In, andb_true_iff, !truthy_true.
      done.
Qed.

Lemma hasValidConfig_iff_witness :
  wf dayStore
  ∧ ∃ b, hasValidConfig dayStore = Ok b dayStore
       ∧ (b = true ↔ ∃ k, k ∈ records dayStore
                          ∧ apiKey k ≠ "" ∧ searchEngineId k ≠ "").
Proof.
  assert (Hwf : wf dayStore) by solve_wf.
  split; [exact Hwf|]. exact (hasValidConfig_iff dayStore Hwf).
Defined.

Lemma loadConfig_empty e s :
  (disk s = None ∨ (∃ raw, disk s = Some (Unparsable raw))
   ∨ readOk e = false) →
  loadConfig e s = Ok tt (set_config (emptyConfig e) s).
Proof.
  unfold loadConfig, tryCatch, existsSync, readFileSync, parse, throw.
  unfold mbind, mret, M_bind, M_ret. cbv beta.
  intros [Hd|[[raw Hd]|Hr]].
  - by rewrite Hd.
  - rewrite Hd. cbv beta iota. rewrite Hd. by destruct (readOk e).
  - destruct (disk s) as [c|] eqn:Hd; [|done].
    cbv beta iota. by rewrite Hd, Hr.
Qed.

Lemma loadConfig_parsed e s d :
  disk s = Some (Json d) → readOk e = true →
  ∃ s1, loadConfig e s = Ok tt (afterReset e (migrated e s1))
      ∧ wf s1
      ∧ records s1 = doc_keys d
      ∧ lastUpdated (config s1) = doc_lastUpdated d
      ∧ version (config s1) = doc_version d
      ∧ disk s1 = disk s.
Proof.
  intros Hd Hr.
  destruct (assignParsed_ok d s) as (s1 & Hrun & Hwf1 & Hrest).
  exists s1. split; [|done].
  unfold loadConfig, tryCatch, existsSync, readFileSync, parse, throw.
  unfold mbind, mret, M_bind, M_ret. cbv beta.
  rewrite Hd. cbv beta iota. rewrite Hd, Hr. cbv beta iota.
  rewrite Hrun, migrateIfNeeded_ok by done.
  by rewrite resetDailyUsageIfNeeded_ok by (by apply wf_migrated).
Qed.

Lemma settled_today d s :
  wf s → settled d s → Forall (λ k, lastReset k = d) (records s).
Proof.
  intros Hwf Hs. apply Forall_recordsAt. intros l k Hl Hk.
  pose proof (anyStale_false _ _ _ _ _ Hs Hl Hk) as Hst.
  unfold stale in Hst. apply negb_false_iff in Hst.
  by apply String.eqb_eq.
Qed.

Lemma loadConfig_settled e s :
  ∃ s', loadConfig e s = Ok tt s' ∧ wf s' ∧ settled (today e) s'.
Proof.
  destruct (disk s) as [[raw|d]|] eqn:Hd.
  - exists (set_config (emptyConfig e) s).
    split; [apply loadConfig_empty; eauto|]. by split; [constructor|].
  - destruct (readOk e) eqn:Hr.
    + destruct (loadConfig_parsed e s d Hd Hr) as (s1 & Hrun & Hwf1 & _).
      exists (afterReset e (migrated e s1)). split; [done|].
      split; [by apply wf_afterReset, wf_migrated|apply settled_afterReset].
    + exists (set_config (emptyConfig e) s).
      split; [apply loadConfig_empty; eauto|]. by split; [constructor|].
  - exists (set_config (emptyConfig e) s).
    split; [apply loadConfig_empty; eauto|]. by split; [constructor|].
Qed.

(** X5.  Both constructors return normally and leave the same state:
    [checkConfiguration] adds nothing to what [loadConfig] did.  In that
    state every record of the store carries the current date, so the
    day-rollover reset is already applied when the server starts. *)
Theorem constructors_agree (e : Env) (file : option FileContent) :
  ∃ s',
    GlobalConfigManager.create e file = Ok tt s'
    ∧ GoogleSearchConfig.create e file = Ok tt s'
    ∧ wf s'
    ∧ Forall (λ k, lastReset k = today e) (records s').
Proof.
  unfold GlobalConfigManager.create, GoogleSearchConfig.create.
  set (s0 := mkState ∅ (mkGlobalConfig [] "" None) file).
  destruct (loadConfig_settled e s0) as (s' & Hrun & Hwf & Hset).
  exists s'. split; [done|]. split; [|split; [done|by apply settled_today]].
  unfold GoogleSearchConfig.checkConfiguration.
  unfold mbind, mret, M_bind, M_ret. cbv beta.
  rewrite Hrun, hasValidConfig_ok by done.
  destruct (usable s'); simpl; [|done].
  rewrite getQuotaStatus_ok by done. by rewrite afterReset_settled.
Qed.

(** *** Persistence *)

(** X6.  What [saveConfig] writes, [loadConfig] reads back: a manager
    started on the saved file has the records of the saved store, in order,
    after the day-rollover reset of its own day.  When no record is due for
    that reset and the store has a version, the records come back field for
    field together with the time stamp and the version, and loading does
    not write the file. *)
Theorem save_then_load (e e' : Env) (s t : State) :
  wf s → writeOk e = true → readOk e' = true →
  ∃ s1,
    saveConfig e s = Ok tt s1
    ∧ (disk t = disk s1 →
       ∃ s',
         loadConfig e' t = Ok tt s'
         ∧ records s' = refresh (today e') <$> records s
         ∧ (settled (today e') s → versionMissing (config s) = false →
            records s' = records s
            ∧ lastUpdated (config s') = now e
            ∧ version (config s') = version (config s)
            ∧ disk s' = disk s1)).
Proof.
  intros Hwf Hw Hr. exists (saved e s).
  split; [by apply saveConfig_ok|]. intros Hd.
  assert (Hdisk : disk t = Some (Json (document (touch e s)))).
  { rewrite Hd. unfold saved. by rewrite Hw. }
  destruct (loadConfig_parsed e' t _ Hdisk Hr)
    as (s1 & Hrun & Hwf1 & Hrec & Hlu & Hv & Hd1).
  simpl in Hrec, Hlu, Hv. fold (records s) in Hrec.
  exists (afterReset e' (migrated e' s1)). split; [done|].
  split; [by rewrite records_afterReset, records_migrated, Hrec|].
  intros Hset Hver.
  assert (Hmig : migrated e' s1 = s1).
  { unfold migrated, versionMissing in *. by rewrite Hv, Hver. }
  rewrite Hmig, afterReset_settled
    by (by apply (settled_records _ s)).
  by rewrite Hd1, Hd.
Qed.

Lemma save_then_load_witness :
  wf dayStore ∧ writeOk morning = true ∧ readOk evening = true
  ∧ ∃ s1,
      saveConfig morning dayStore = Ok tt s1
      ∧ ∃ s', loadConfig evening s1 = Ok tt s'
            ∧ records s' = refresh (today evening) <$> records dayStore.
Proof.
  assert (Hwf : wf dayStore) by solve_wf.
  split; [exact Hwf|]. split; [reflexivity|]. split; [reflexivity|].
  destruct (save_then_load morning evening dayStore
              (match saveConfig morning dayStore with
               | Ok _ s1 => s1
               | Throw _ s1 => s1
               end) Hwf eq_refl eq_refl)
    as (s1 & Hsave & Hload).
  exists s1. split; [exact Hsave|].
  destruct Hload as (s' & Hrun & Hrec & _); [by rewrite Hsave|].
  rewrite Hsave in Hrun. exists s'. split; [exact Hrun|exact Hrec].
Defined.

Lemma today_noWrite e : today (noWrite e) = today e.
Proof. reflexivity. Qed.

(** The heap and the configuration after a call depend on the heap, the
    configuration and the clock alone: not on the file, nor on whether
    writes go through. *)
Lemma step_memory e e' op s t :
  now e' = now e → heap t = heap s → config t = config s →
  heap (step e' op t) = heap (step e op s)
  ∧ config (step e' op t) = config (step e op s)
  ∧ reply e' op t = reply e op s.
Proof.
  intros Hn Hh Hc. destruct s as [h c d], t as [h' c' d'].
  simpl in Hh, Hc. subst h' c'.
  assert (Ht : today e' = today e) by (unfold today; by rewrite Hn).
  destruct op; simpl;
    unfold afterReset, needsReset, updateById, refreshed, updateAt, saved,
      touch, snapshot, usable, records; simpl; rewrite ?Ht, ?Hn;
    repeat match goal with
           | |- context [if ?b then _ else _] => destruct b
           | |- context [match ?o with Some _ => _ | None => _ end] =>
               destruct o
           end; done.
Qed.

Lemma step_noWrite_disk e op s : disk (step (noWrite e) op s) = disk s.
Proof.
  destruct op; simpl;
    unfold afterReset, updateById, saved; simpl;
    repeat match goal with
           | |- context [if ?b then _ else _] => destruct b
           | |- context [match ?o with Some _ => _ | None => _ end] =>
               destruct o
           end; done.
Qed.

Lemma steps_memory calls : ∀ s t,
  heap t = heap s → config t = config s →
  heap (steps (prod_map noWrite Datatypes.id <$> calls) t)
  = heap (steps calls s)
  ∧ config (steps (prod_map noWrite Datatypes.id <$> calls) t)
    = config (steps calls s)
  ∧ replies (prod_map noWrite Datatypes.id <$> calls) t = replies calls s
  ∧ disk (steps (prod_map noWrite Datatypes.id <$> calls) t) = disk t.
Proof.
  induction calls as [|[e op] calls IH]; intros s t Hh Hc; [done|].
  csimpl.
  destruct (step_memory e (noWrite e) op s t eq_refl Hh Hc)
    as (Hh1 & Hc1 & Hr1).
  destruct (IH _ _ Hh1 Hc1) as (Hh2 & Hc2 & Hr2 & Hd2).
  rewrite Hh2, Hc2, Hr2, Hr1, Hd2. by rewrite step_noWrite_disk.
Qed.

(** X7.  A session in which every write to the file fails returns
    normally, with the same replies and the same store in memory as the
    session whose writes go through; the file keeps its content. *)
Theorem write_failures_are_invisible
    (calls : list (Env * Session.Op)) (s : State) :
  wf s →
  ∃ rs s1 s2,
    Session.run calls s = Ok rs s1
    ∧ Session.run (prod_map noWrite Datatypes.id <$> calls) s = Ok rs s2
    ∧ heap s2 = heap s1
    ∧ config s2 = config s1
    ∧ disk s2 = disk s.
Proof.
  intros Hwf.
  destruct (steps_memory calls s s eq_refl eq_refl)
    as (Hh & Hc & Hr & Hd).
  exists (replies calls s), (steps calls s),
         (steps (prod_map noWrite Datatypes.id <$> calls) s).
  split; [by apply run_ok|].
  split; [by rewrite run_ok, Hr|done].
Qed.

Lemma write_failures_are_invisible_witness :
  wf nearlySpentStore
  ∧ ∃ rs s1 s2,
      Session.run usageSession nearlySpentStore = Ok rs s1
      ∧ Session.run (prod_map noWrite Datatypes.id <$> usageSession)
                    nearlySpentStore = Ok rs s2
      ∧ records s2 = records s1
      ∧ disk s2 = None.
Proof.
  assert (Hwf : wf nearlySpentStore) by solve_wf.
  split; [exact Hwf|].
  destruct (write_failures_are_invisible usageSession nearlySpentStore Hwf)
    as (rs & s1 & s2 & H1 & H2 & Hh & Hc & Hd).
  exists rs, s1, s2. split; [exact H1|]. split; [exact H2|].
  split; [|exact Hd]. unfold records. by rewrite Hh, Hc.
Defined.

(** *** The search tool, path by path *)

Lemma fixed_records_afterReset e s :
  fixedFields <$> records (afterReset e s) = fixedFields <$> records s.
Proof.
  unfold records. rewrite keys_afterReset.
  apply recordsAt_proj. intros l. apply fixed_afterReset.
Qed.

Lemma fixed_records_updateById f e keyId s :
  (∀ k, fixedFields (f k) = fixedFields k) →
  fixedFields <$> records (updateById f e keyId s)
  = fixedFields <$> records s.
Proof.
  intros Hf. unfold records. rewrite keys_updateById.
  apply recordsAt_proj. intros l. by apply fixed_updateById.
Qed.

(** The [catch] block on any store: it returns an error response, and what
    holds of every record and survives reset and deactivation still
    holds. *)
Lemma onError_total P e error s :
  stable P → wf s → Forall P (records s) →
  ∃ s',
    Search.onError e error s
    = Ok (Search.mkResponse
            [Search.ErrorText (JS.message error) (Search.details error)
               (snapshot s')] true) s'
    ∧ wf s'
    ∧ keys (config s') = keys (config s)
    ∧ fixedFields <$> records s' = fixedFields <$> records s
    ∧ Forall P (records s').
Proof.
  intros Hst Hwf HP.
  pose proof (wf_afterReset e s Hwf) as Hwf1.
  pose proof (all_afterReset P e s Hst HP) as HP1.
  unfold Search.onError, GoogleSearchConfig.disableKey,
    GoogleSearchConfig.getQuotaStatus.
  unfold mbind, mret, M_bind, M_ret. cbv beta.
  destruct (JS.codeIs403 error).
  - rewrite copy_of_selected_ok by done.
    destruct (selectAt _ _) as [l|] eqn:Hsel.
    + apply selectAt_Some in Hsel as (Hl & k & Hk & _).
      rewrite Hk. cbv beta iota.
      unfold deref. rewrite heap_withNew_new. cbv beta iota.
      set (t := withNew k (afterReset e s)).
      assert (Hwft : wf t) by (by apply wf_withNew).
      assert (HPt : Forall P (records t))
        by (unfold t; by rewrite records_withNew).
      rewrite disableKey_ok by done.
      set (t3 := updateById deactivated e (id k) t).
      assert (Hwf3 : wf t3) by (by apply wf_updateById).
      rewrite getQuotaStatus_ok by done.
      exists (afterReset e t3). split; [done|].
      split; [by apply wf_afterReset|].
      split.
      { unfold t3, t. by rewrite keys_afterReset, keys_updateById,
          <- (keys_afterReset e s). }
      split.
      { rewrite fixed_records_afterReset. unfold t3.
        rewrite fixed_records_updateById by done. unfold t.
        by rewrite records_withNew, fixed_records_afterReset. }
      apply all_afterReset; [done|]. apply all_updateById; [|done].
      intros. by apply Hst.
    + rewrite getQuotaStatus_ok by done.
      exists (afterReset e (afterReset e s)). split; [done|].
      split; [by apply wf_afterReset|].
      split; [by rewrite !keys_afterReset|].
      split; [by rewrite !fixed_records_afterReset|by apply all_afterReset].
  - rewrite getQuotaStatus_ok by done.
    exists (afterReset e s). split; [done|]. split; [done|].
    split; [by rewrite keys_afterReset|].
    split; [by rewrite fixed_records_afterReset|done].
Qed.

Lemma ids_of_fixed (rs rs' : list ApiKeyState) :
  fixedFields <$> rs' = fixedFields <$> rs → id <$> rs' = id <$> rs.
Proof.
  intros H.
  assert (Hid : ∀ l : list ApiKeyState,
            id <$> l = (λ t : string * string * string * Z, t.1.1.1)
                       <$> (fixedFields <$> l)).
  { intros l. rewrite <- list_fmap_compose. by apply list_fmap_ext. }
  by rewrite !Hid, H.
Qed.

Lemma inBudget_incUsage k : inBudget k → qualifies k → inBudget (incUsage k).
Proof. unfold inBudget, qualifies. simpl. lia. Qed.

Lemma select_of_getAvailableKey e s r s1 :
  wf s → GlobalConfigManager.getAvailableKey e s = Ok r s1 →
  s1 = afterReset e s
  ∧ selectAt (heap (afterReset e s)) (keys (config s)) = r.
Proof.
  intros Hwf. rewrite getAvailableKey_ok by done. by intros [= <- <-].
Qed.

(** What holds of every record, survives reset and deactivation, and
    survives the increment of [execute], holds after [execute].  The
    increment may rely on the record being under its limit when no other
    request uses the store during the call. *)
Lemma execute_invariant P e1 e2 during api params s :
  stable P → wf s → Forall P (records s) →
  ((∀ k, P k → P (incUsage k))
   ∨ (during = [] ∧ NoDup (id <$> records s)
      ∧ ∀ k, P k → qualifies k → P (incUsage k))) →
  ∃ resp s',
    Search.execute e1 e2 during api params s = Ok resp s'
    ∧ wf s'
    ∧ keys (config s') = keys (config s)
    ∧ fixedFields <$> records s' = fixedFields <$> records s
    ∧ Forall P (records s').
Proof.
  intros Hst Hwf HP Hinc.
  pose proof (wf_afterReset e1 s Hwf) as Hwf1.
  pose proof (all_afterReset _ e1 s Hst HP) as HP1.
  pose proof (fixed_records_afterReset e1 s) as Hfix1.
  pose proof (execute_cases e1 e2 during api params s Hwf) as Hcases.
  destruct (selectAt _ _) as [l|].
  - destruct Hcases as (k & Hk & Hq & Hl & Hcases).
    set (s1 := withNew k (afterReset e1 s)) in *.
    assert (Hwfs1 : wf s1) by (by apply wf_withNew).
    assert (Hrec1 : records s1 = records (afterReset e1 s))
      by (by apply records_withNew).
    assert (Hkeys1 : keys (config s1) = keys (config s))
      by apply keys_afterReset.
    set (s2 := steps during s1) in *.
    assert (Hwf2 : wf s2) by (by apply wf_steps).
    assert (Hkeys2 : keys (config s2) = keys (config s))
      by (unfold s2; by rewrite keys_steps).
    assert (Hfix2 : fixedFields <$> records s2 = fixedFields <$> records s)
      by (unfold s2; by rewrite fixed_steps, Hrec1).
    assert (HP2 : Forall P (records s2)).
    { destruct Hinc as [Hinc|(-> & _)].
      - apply all_steps; [done|done|by rewrite Hrec1].
      - unfold s2. simpl. by rewrite Hrec1. }
    assert (Hafter : ∀ error,
      ∃ resp s',
        Search.onError e2 error s2 = Ok resp s'
        ∧ wf s' ∧ keys (config s') = keys (config s)
        ∧ fixedFields <$> records s' = fixedFields <$> records s
        ∧ Forall P (records s')).
    { intros error.
      destruct (onError_total P e2 error s2 Hst Hwf2 HP2)
        as (s' & Hrun & Hwf' & Hkeys & Hfix & HP').
      eexists _, s'. split; [exact Hrun|]. split; [done|].
      split; [by rewrite Hkeys|]. split; [by rewrite Hfix|done]. }
    destruct (api _) as [response|error].
    + cbv zeta in Hcases.
      set (t := updateById incUsage e2 (id k) s2) in *.
      assert (Hwft : wf t) by (by apply wf_updateById).
      assert (Hkeyst : keys (config t) = keys (config s))
        by (unfold t; by rewrite keys_updateById).
      assert (Hfixt : fixedFields <$> records t = fixedFields <$> records s)
        by (unfold t; by rewrite fixed_records_updateById).
      assert (HPt : Forall P (records t)).
      { apply all_updateById; [|done].
        destruct Hinc as [Hinc|(Hd & Hnd & Hinc)]; [by eauto|].
        intros l' k' Hfind Hk' Hb'. apply Hinc; [done|].
        assert (Hs2 : s2 = s1) by (unfold s2; by rewrite Hd).
        rewrite Hs2 in *.
        assert (Hfind' : lookupId (id k) (heap s1) (keys (config s1))
                         = Some l).
        { apply lookupId_unique; [done| |by rewrite Hkeys1|].
          - fold (records s1).
            by rewrite Hrec1, (ids_of_fixed _ _ Hfix1).
          - unfold s1. rewrite heap_withNew_key; [done..|].
            by rewrite keys_afterReset. }
        assert (l' = l) as -> by congruence.
        assert (k' = k) as ->; [|done].
        unfold s1 in Hk'. rewrite heap_withNew_key in Hk'; [congruence|done|].
        by rewrite keys_afterReset. }
      assert (Hthrown :
        ∃ resp s',
          Search.onError e2 JS.typeError t = Ok resp s'
          ∧ wf s' ∧ keys (config s') = keys (config s)
          ∧ fixedFields <$> records s' = fixedFields <$> records s
          ∧ Forall P (records s')).
      { destruct (onError_total P e2 JS.typeError t Hst Hwft HPt)
          as (s' & Hrun & Hwf' & Hkeys & Hfix & HP').
        eexists _, s'. split; [exact Hrun|]. split; [done|].
        split; [by rewrite Hkeys|]. split; [by rewrite Hfix|done]. }
      destruct response as [data|]; [|by rewrite Hcases].
      destruct (resultList data) as [results|]; [|by rewrite Hcases].
      eexists _, _. split; [exact Hcases|].
      split; [by apply wf_afterReset|].
      split; [by rewrite keys_afterReset|].
      split; [by rewrite fixed_records_afterReset|].
      by apply all_afterReset.
    + rewrite Hcases. apply Hafter.
  - destruct (onError_total P e2 Search.quotaExhausted
                (afterReset e1 s) Hst Hwf1 HP1)
      as (s' & Hrun & Hwf' & Hkeys & Hfix & HP').
    eexists _, s'. split; [by rewrite Hcases|]. split; [done|].
    split; [by rewrite Hkeys, keys_afterReset|].
    split; [by rewrite Hfix|done].
Qed.

(** X8.  Whatever the other requests do on the store while the call is in
    flight and whatever the search API answers (a rejection, a response, a
    response that cannot be read), [execute] returns a response and does
    not throw.  It keeps the records of the store, their order, their id,
    key, search engine id and limit, and the ids pairwise different; no
    usage becomes negative.  When no other request uses the store during
    the call, no key is taken beyond its limit. *)
Theorem execute_always_responds (e1 e2 : Env)
    (during : list (Env * Session.Op))
    (api : Search.Request → Search.CallOutcome)
    (params : Search.SearchParams) (s : State) :
  wf s →
  NoDup (id <$> records s) →
  ∃ resp s',
    Search.execute e1 e2 during api params s = Ok resp s'
    ∧ wf s'
    ∧ NoDup (id <$> records s')
    ∧ keys (config s') = keys (config s)
    ∧ fixedFields <$> records s' = fixedFields <$> records s
    ∧ (Forall (λ k, (0 ≤ dailyUsage k)%Z) (records s) →
       Forall (λ k, (0 ≤ dailyUsage k)%Z) (records s'))
    ∧ (during = [] → Forall inBudget (records s) →
       Forall inBudget (records s')).
Proof.
  intros Hwf Hnd.
  destruct (execute_invariant (λ _, True) e1 e2 during api params s
              stable_True Hwf) as (resp & s' & Hrun & Hwf' & Hkeys & Hfix & _).
  { by apply Forall_true. }
  { by left. }
  exists resp, s'. split; [done|]. split; [done|].
  split; [by rewrite (ids_of_fixed _ _ Hfix)|].
  split; [done|]. split; [done|]. split.
  - intros Hnn.
    destruct (execute_invariant _ e1 e2 during api params s
                stable_nonneg Hwf Hnn) as (resp2 & s2 & Hrun2 & _ & _ & _ & H);
      [left; simpl; intros; lia|].
    rewrite Hrun in Hrun2. by injection Hrun2 as _ ->.
  - intros Hd Hbud.
    destruct (execute_invariant _ e1 e2 during api params s
                stable_inBudget Hwf Hbud) as (resp2 & s2 & Hrun2 & _ & _ & _ & H).
    { right. split; [done|]. split; [done|]. apply inBudget_incUsage. }
    rewrite Hrun in Hrun2. by injection Hrun2 as _ ->.
Qed.

Lemma execute_always_responds_witness :
  wf nearlySpentStore
  ∧ NoDup (id <$> records nearlySpentStore)
  ∧ ∃ resp s',
      Search.execute morning evening otherFailure holed sampleQuery
        nearlySpentStore = Ok resp s'
      ∧ wf s'
      ∧ fixedFields <$> records s' = fixedFields <$> records nearlySpentStore.
Proof.
  assert (H1 : wf nearlySpentStore) by solve_wf.
  assert (H2 : NoDup (id <$> records nearlySpentStore)).
  { apply (bool_decide_unpack _). by vm_compute. }
  split; [exact H1|]. split; [exact H2|].
  destruct (execute_always_responds morning evening otherFailure holed
              sampleQuery nearlySpentStore H1 H2)
    as (resp & s' & Hrun & Hwf' & _ & _ & Hfix & _).
  exists resp, s'. split; [exact Hrun|]. split; [exact Hwf'|exact Hfix].
Defined.

(** The state that a [getQuotaStatus] leaves when it changes nothing. *)
Lemma getQuotaStatus_fixed e s q :
  wf s → GlobalConfigManager.getQuotaStatus e s = Ok q s →
  settled (today e) s.
Proof.
  intros Hwf. rewrite getQuotaStatus_ok by done. intros [= _ Hs].
  pose proof (settled_afterReset e s) as Hset. by rewrite Hs in Hset.
Qed.

(** X9.  A request acquires a credential (the copy [a] of a record with
    the id of [k0]) and its search call resolves with a response that can
    be read.  Other requests may have used the store in the meantime; take
    the store as it is when the call returns, [s2], with no day-rollover
    reset due, and let [l] be its record with the acquired id (the ids are
    pairwise different).  Then [execute] returns the results with the id of
    the acquired key; compared with [s2], the [dailyUsage] of [l] is one
    higher, nothing else of it and no other record changes, and the quota
    in the response is the one a [getQuotaStatus] on the final store
    gives. *)
Theorem successful_call_counts_once (e1 e2 : Env)
    (during : list (Env * Session.Op))
    (api : Search.Request → Search.CallOutcome)
    (params : Search.SearchParams) (data : Search.SearchData)
    (results : list Search.SearchResult)
    (s s1 s2 : State) (rs : list Session.Reply)
    (q : GlobalConfigManager.QuotaStatus)
    (a l : loc) (k0 k : ApiKeyState) :
  wf s →
  NoDup (id <$> records s) →
  GoogleSearchConfig.getAvailableKey e1 s = Ok (Some a) s1 →
  heap s1 !! a = Some k0 →
  Session.run during s1 = Ok rs s2 →
  GlobalConfigManager.getQuotaStatus e2 s2 = Ok q s2 →
  l ∈ keys (config s2) →
  heap s2 !! l = Some k →
  id k = id k0 →
  api (Search.searchParams k0 params) = Search.Resolved (Some data) →
  resultList data = Some results →
  ∃ quota s',
    Search.execute e1 e2 during api params s
    = Ok (Search.mkResponse
            [Search.ResultText results (Search.query params)
               (JS.orUndefined (Search.totalResults data) "0")
               (JS.orUndefined (Search.searchTime data) "0")
               (length results) (id k0) quota] false) s'
    ∧ GlobalConfigManager.getQuotaStatus e2 s' = Ok quota s'
    ∧ keys (config s') = keys (config s2)
    ∧ heap s' !! l
      = Some (mkApiKeyState (id k) (apiKey k) (searchEngineId k)
                (dailyUsage k + 1) (dailyLimit k) (lastReset k)
                (isActive k))
    ∧ ∀ l', l' ∈ keys (config s2) → l' ≠ l → heap s' !! l' = heap s2 !! l'.
Proof.
  intros Hwf Hnd Hacq Hk0 Hrun Hquota Hl Hk Hid Hapi Hres.
  destruct (copy_acquired _ _ _ _ _ Hwf Hacq Hk0)
    as (l0 & Hsel0 & Hl0 & Hs1 & _).
  pose proof (wf_afterReset e1 s Hwf) as Hwf1.
  assert (Hwfs1 : wf s1) by (rewrite Hs1; by apply wf_withNew).
  rewrite run_ok in Hrun by done. injection Hrun as _ Hs2.
  assert (Hwf2 : wf s2) by (rewrite <- Hs2; by apply wf_steps).
  pose proof (getQuotaStatus_fixed e2 s2 q Hwf2 Hquota) as Hset.
  assert (Hnd2 : NoDup (id <$> records s2)).
  { rewrite <- Hs2, ids_steps, Hs1, records_withNew by done.
    by rewrite (ids_of_fixed _ _ (fixed_records_afterReset e1 s)). }
  pose proof (execute_cases e1 e2 during api params s Hwf) as Hcases.
  rewrite Hsel0 in Hcases. destruct Hcases as (k00 & Hk00 & _ & _ & Hcases).
  assert (k00 = k0) as -> by congruence.
  rewrite <- Hs1, Hs2, Hapi in Hcases. cbv zeta in Hcases.
  rewrite Hres in Hcases.
  assert (Hfind : lookupId (id k0) (heap s2) (keys (config s2)) = Some l).
  { rewrite <- Hid. by apply lookupId_unique. }
  set (t := updateById incUsage e2 (id k0) s2) in *.
  assert (Ht : t = saved e2 (updateAt incUsage l s2)).
  { unfold t, updateById. by rewrite Hfind. }
  assert (Hwft : wf t) by (by apply wf_updateById).
  assert (Hsett : settled (today e2) t).
  { apply (settled_dates _ s2); [|done].
    by rewrite Ht, records_saved, records_updateAt. }
  rewrite (afterReset_settled e2 t Hsett) in Hcases.
  exists (snapshot t), t. split; [exact Hcases|].
  split.
  { rewrite getQuotaStatus_ok by done.
    by rewrite (afterReset_settled e2 t Hsett). }
  rewrite Ht, keys_saved, heap_saved. simpl.
  split; [done|]. split.
  - by rewrite lookup_alter_eq, Hk.
  - intros l' Hl' Hne. by rewrite lookup_alter_ne.
Qed.

Lemma successful_call_counts_once_witness :
  wf nearlySpentStore
  ∧ NoDup (id <$> records nearlySpentStore)
  ∧ (∃ a s1 rs s2 q k data results,
       GoogleSearchConfig.getAvailableKey morning nearlySpentStore
       = Ok (Some a) s1
       ∧ heap s1 !! a = Some nearlySpentKey
       ∧ Session.run otherSuccess s1 = Ok rs s2
       ∧ GlobalConfigManager.getQuotaStatus evening s2 = Ok q s2
       ∧ 1%positive ∈ keys (config s2)
       ∧ heap s2 !! 1%positive = Some k
       ∧ id k = id nearlySpentKey
       ∧ dailyUsage k = 99%Z
       ∧ answering (Search.searchParams nearlySpentKey sampleQuery)
         = Search.Resolved (Some data)
       ∧ resultList data = Some results)
  ∧ ∃ resp s',
      Search.execute morning evening otherSuccess answering sampleQuery
        nearlySpentStore = Ok resp s'
      ∧ Search.isError resp = false
      ∧ dailyUsage <$> heap s' !! 1%positive = Some 100%Z.
Proof.
  assert (H1 : wf nearlySpentStore) by solve_wf.
  assert (H2 : NoDup (id <$> records nearlySpentStore)).
  { apply (bool_decide_unpack _). by vm_compute. }
  set (a := fresh (dom (heap nearlySpentStore))).
  set (s1 := withNew nearlySpentKey nearlySpentStore).
  set (s2 := steps otherSuccess s1).
  set (k := incUsage nearlySpentKey).
  assert (H3 : GoogleSearchConfig.getAvailableKey morning nearlySpentStore
               = Ok (Some a) s1) by (vm_compute; reflexivity).
  assert (H4 : heap s1 !! a = Some nearlySpentKey) by (vm_compute; reflexivity).
  assert (H5 : Session.run otherSuccess s1 = Ok (replies otherSuccess s1) s2)
    by (vm_compute; reflexivity).
  assert (H6 : GlobalConfigManager.getQuotaStatus evening s2
               = Ok (snapshot s2) s2) by (vm_compute; reflexivity).
  assert (H7 : 1%positive ∈ keys (config s2)) by (simpl; left).
  assert (H8 : heap s2 !! 1%positive = Some k) by (vm_compute; reflexivity).
  assert (H9 : id k = id nearlySpentKey) by reflexivity.
  split; [exact H1|]. split; [exact H2|].
  split.
  { exists a, s1, (replies otherSuccess s1), s2, (snapshot s2), k.
    eexists _, _. repeat (split; [assumption|]).
    split; [reflexivity|]. split; reflexivity. }
  destruct (successful_call_counts_once morning evening otherSuccess
              answering sampleQuery _ _ nearlySpentStore s1 s2 _ _ a
              1%positive nearlySpentKey k H1 H2 H3 H4 H5 H6 H7 H8 H9
              eq_refl eq_refl)
    as (quota & s' & Hrun & _ & _ & Hl & _).
  eexists _, s'. split; [exact Hrun|]. split; [reflexivity|].
  exact (f_equal (fmap dailyUsage) Hl).
Defined.

(** X10.  When no record is active and under its limit, [execute] does not
    call the search API and does not reach its [await]: whatever the API
    would answer and whatever the other requests would do, the response is
    the error "All Google API keys have reached their daily quota" with the
    details "Unknown error" and the current quota, and the store is the one
    a [getQuotaStatus] after the failed selection leaves. *)
Theorem execute_without_key (e1 e2 : Env) (params : Search.SearchParams)
    (s s1 : State) :
  wf s →
  GlobalConfigManager.getAvailableKey e1 s = Ok None s1 →
  ∃ quota s',
    GlobalConfigManager.getQuotaStatus e2 s1 = Ok quota s'
    ∧ ∀ during api,
        Search.execute e1 e2 during api params s
        = Ok (Search.mkResponse
                [Search.ErrorText
                   "All Google API keys have reached their daily quota. Try again tomorrow."
                   "Unknown error" quota] true) s'.
Proof.
  intros Hwf Hsel.
  apply select_of_getAvailableKey in Hsel as [-> Hsel]; [|done].
  pose proof (wf_afterReset e1 s Hwf) as Hwf1.
  exists (snapshot (afterReset e2 (afterReset e1 s))),
         (afterReset e2 (afterReset e1 s)).
  split; [by apply getQuotaStatus_ok|]. intros during api.
  pose proof (execute_cases e1 e2 during api params s Hwf) as Hcases.
  rewrite Hsel in Hcases. rewrite Hcases.
  unfold Search.onError, GoogleSearchConfig.getQuotaStatus.
  unfold mbind, mret, M_bind, M_ret. cbv beta.
  change (JS.codeIs403 Search.quotaExhausted) with false.
  cbv beta iota. by rewrite getQuotaStatus_ok.
Qed.

Lemma execute_without_key_witness :
  wf spentStore
  ∧ GlobalConfigManager.getAvailableKey morning spentStore
    = Ok None spentStore
  ∧ ∃ resp s',
      Search.execute morning evening [] answering sampleQuery spentStore
      = Ok resp s'
      ∧ Search.execute morning evening otherSuccess forbidden sampleQuery
          spentStore = Ok resp s'
      ∧ Search.isError resp = true.
Proof.
  assert (H1 : wf spentStore) by solve_wf.
  assert (H2 : GlobalConfigManager.getAvailableKey morning spentStore
               = Ok None spentStore) by (vm_compute; reflexivity).
  split; [exact H1|]. split; [exact H2|].
  destruct (execute_without_key morning evening sampleQuery
              spentStore spentStore H1 H2) as (q & s' & _ & Hall).
  eexists _, s'. split; [apply Hall|]. split; [apply Hall|reflexivity].
Defined.

(** The [catch] block on an error whose code is not the number 403: the
    quota is read and nothing else is done. *)
Lemma onError_plain e error s :
  wf s → JS.codeIs403 error = false →
  Search.onError e error s
  = Ok (Search.mkResponse
          [Search.ErrorText (JS.message error) (Search.details error)
             (snapshot (afterReset e s))] true) (afterReset e s).
Proof.
  intros Hwf Hcode.
  unfold Search.onError, GoogleSearchConfig.getQuotaStatus.
  unfold mbind, mret, M_bind, M_ret. cbv beta.
  rewrite Hcode. cbv beta iota. by rewrite getQuotaStatus_ok.
Qed.

(** X15.  Two requests in flight together can take a key beyond its limit.
    A request acquires a key that is one call short of its limit; while
    its search call is in flight, another request that holds the same key
    counts its own call.  When the search call resolves, whether its
    response can be read or not, [execute] counts it too, and the record
    ends one call above its limit. *)
Theorem overlapping_calls_pass_the_limit (e1 e e2 : Env)
    (api : Search.Request → Search.CallOutcome)
    (params : Search.SearchParams) (response : option Search.SearchData)
    (s s1 : State) (a : loc) (k0 : ApiKeyState) :
  wf s →
  NoDup (id <$> records s) →
  GoogleSearchConfig.getAvailableKey e1 s = Ok (Some a) s1 →
  heap s1 !! a = Some k0 →
  (dailyUsage k0 + 1 = dailyLimit k0)%Z →
  today e2 = today e1 →
  api (Search.searchParams k0 params) = Search.Resolved response →
  ∃ resp s' l k',
    Search.execute e1 e2 [(e, Session.RecordUsage (id k0))] api params s
    = Ok resp s'
    ∧ l ∈ keys (config s')
    ∧ heap s' !! l = Some k'
    ∧ id k' = id k0
    ∧ dailyLimit k' = dailyLimit k0
    ∧ dailyUsage k' = (dailyLimit k' + 1)%Z.
Proof.
  intros Hwf Hnd Hacq Hk0 Hlast Hday Hapi.
  destruct (copy_acquired _ _ _ _ _ Hwf Hacq Hk0)
    as (l & Hsel & Hl & Hs1 & _).
  pose proof (wf_afterReset e1 s Hwf) as Hwf1.
  pose proof (selectAt_Some _ _ _ Hsel) as (Hin & _).
  assert (Hwfs1 : wf s1) by (rewrite Hs1; by apply wf_withNew).
  assert (Hkeys1 : keys (config s1) = keys (config s))
    by (rewrite Hs1; apply keys_afterReset).
  assert (Hl1 : heap s1 !! l = Some k0).
  { rewrite Hs1, heap_withNew_key; [done..|]. by rewrite keys_afterReset. }
  assert (Hfind1 : lookupId (id k0) (heap s1) (keys (config s1)) = Some l).
  { apply lookupId_unique; [done| |by rewrite Hkeys1|done].
    fold (records s1). rewrite Hs1, records_withNew by done.
    by rewrite (ids_of_fixed _ _ (fixed_records_afterReset e1 s)). }
  set (s2 := steps [(e, Session.RecordUsage (id k0))] s1).
  assert (Hs2 : s2 = saved e (updateAt incUsage l s1)).
  { unfold s2. simpl. unfold updateById. by rewrite Hfind1. }
  assert (Hwf2 : wf s2) by (by apply wf_steps).
  assert (Hfind2 : lookupId (id k0) (heap s2) (keys (config s2)) = Some l).
  { change s2 with (step e (Session.RecordUsage (id k0)) s1).
    by rewrite lookupId_step. }
  set (t := updateById incUsage e2 (id k0) s2).
  assert (Ht : t = saved e2 (updateAt incUsage l s2)).
  { unfold t, updateById. by rewrite Hfind2. }
  assert (Hwft : wf t) by (by apply wf_updateById).
  assert (Hsett : settled (today e2) t).
  { apply (settled_dates _ (afterReset e1 s)).
    - rewrite Ht, records_saved, records_updateAt by done.
      rewrite Hs2, records_saved, records_updateAt by done.
      by rewrite Hs1, records_withNew.
    - rewrite Hday. apply settled_afterReset. }
  assert (Hrun : ∃ resp,
            Search.execute e1 e2 [(e, Session.RecordUsage (id k0))]
              api params s = Ok resp t).
  { pose proof (execute_cases e1 e2 [(e, Session.RecordUsage (id k0))]
                  api params s Hwf) as Hcases.
    rewrite Hsel in Hcases. destruct Hcases as (k & Hk & _ & _ & Hcases).
    assert (k = k0) as -> by congruence.
    rewrite <- Hs1, Hapi in Hcases. cbv zeta in Hcases.
    fold s2 in Hcases. fold t in Hcases.
    assert (Hthrown : ∃ resp, Search.onError e2 JS.typeError t = Ok resp t).
    { eexists. rewrite onError_plain by done.
      by rewrite (afterReset_settled e2 t Hsett). }
    destruct response as [data|]; [|by rewrite Hcases].
    destruct (resultList data) as [results|]; [|by rewrite Hcases].
    eexists. rewrite Hcases. by rewrite (afterReset_settled e2 t Hsett). }
  destruct Hrun as [resp Hrun].
  exists resp, t, l, (incUsage (incUsage k0)).
  split; [done|].
  split.
  { unfold t. rewrite keys_updateById. unfold s2.
    by rewrite keys_steps, Hkeys1. }
  split.
  { rewrite Ht, heap_saved. simpl.
    rewrite lookup_alter_eq, Hs2, heap_saved. simpl.
    by rewrite lookup_alter_eq, Hl1. }
  split; [done|]. split; [done|]. simpl. lia.
Qed.

Lemma overlapping_calls_pass_the_limit_witness :
  wf lastCallStore
  ∧ NoDup (id <$> records lastCallStore)
  ∧ (dailyUsage lastCallKey + 1 = dailyLimit lastCallKey)%Z
  ∧ today evening = today morning
  ∧ (∃ a s1,
       GoogleSearchConfig.getAvailableKey morning lastCallStore
       = Ok (Some a) s1
       ∧ heap s1 !! a = Some lastCallKey)
  ∧ ∃ resp s',
      Search.execute morning evening
        [(morning, Session.RecordUsage "key_1")] answering sampleQuery
        lastCallStore = Ok resp s'
      ∧ (dailyUsage <$> records s', dailyLimit <$> records s')
        = ([101%Z], [100%Z]).
Proof.
  assert (H1 : wf lastCallStore) by solve_wf.
  assert (H2 : NoDup (id <$> records lastCallStore)).
  { apply (bool_decide_unpack _). by vm_compute. }
  assert (H3 : (dailyUsage lastCallKey + 1 = dailyLimit lastCallKey)%Z)
    by reflexivity.
  assert (H4 : today evening = today morning) by reflexivity.
  set (a := fresh (dom (heap lastCallStore))).
  set (s1 := withNew lastCallKey lastCallStore).
  assert (H5 : GoogleSearchConfig.getAvailableKey morning lastCallStore
               = Ok (Some a) s1) by (vm_compute; reflexivity).
  assert (H6 : heap s1 !! a = Some lastCallKey) by (vm_compute; reflexivity).
  repeat (split; [assumption|]).
  split; [by exists a, s1|].
  destruct (overlapping_calls_pass_the_limit morning morning evening
              answering sampleQuery _ lastCallStore s1 a lastCallKey
              H1 H2 H5 H6 H3 H4 eq_refl)
    as (resp & s' & l & k' & Hrun & _).
  exists resp, s'. split; [exact Hrun|].
  assert (Hs' : Ok resp s'
                = Search.execute morning evening
                    [(morning, Session.RecordUsage "key_1")] answering
                    sampleQuery lastCallStore) by (symmetry; exact Hrun).
  vm_compute in Hs'. injection Hs' as _ ->. reflexivity.
Defined.

(** *** The setup script *)

Lemma trimStart_clean cs : cleanFront (JS.trimStartChars cs).
Proof.
  induction cs as [|c cs IH]; simpl; [done|].
  destruct (JS.isWhiteSpace c) eqn:Hc; [done|]. simpl. done.
Qed.

Lemma trimStart_id cs : cleanFront cs → JS.trimStartChars cs = cs.
Proof. destruct cs as [|c cs]; simpl; [done|]. by intros ->. Qed.

Lemma trimStart_suffix cs : ∃ p, cs = p ++ JS.trimStartChars cs.
Proof.
  induction cs as [|c cs [p IH]]; simpl; [by exists []|].
  destruct (JS.isWhiteSpace c).
  - exists (c :: p). simpl. by rewrite <- IH.
  - by exists [].
Qed.

Lemma clean_backwards a :
  cleanFront a → cleanFront (rev (JS.trimStartChars (rev a))).
Proof.
  intros Ha. destruct (trimStart_suffix (rev a)) as [p Hp].
  apply (f_equal (@rev ascii)) in Hp.
  rewrite rev_involutive, rev_app_distr in Hp.
  destruct (rev (JS.trimStartChars (rev a))) as [|c r]; [done|].
  rewrite Hp in Ha. exact Ha.
Qed.

Lemma trimChars_idem cs : JS.trimChars (JS.trimChars cs) = JS.trimChars cs.
Proof.
  unfold JS.trimChars.
  set (b := JS.trimStartChars (rev (JS.trimStartChars cs))).
  assert (Hr : cleanFront (rev b))
    by apply clean_backwards, trimStart_clean.
  rewrite (trimStart_id _ Hr), rev_involutive.
  by rewrite (trimStart_id b) by apply trimStart_clean.
Qed.

Lemma trim_idem s : JS.trim (JS.trim s) = JS.trim s.
Proof.
  unfold JS.trim.
  by rewrite list_ascii_of_string_of_list_ascii, trimChars_idem.
Qed.

Lemma parseList_entered input : Forall entered (Setup.parseList input).
Proof.
  unfold Setup.parseList.
  induction (Setup.splitComma input) as [|x l IH]; [constructor|].
  csimpl. destruct (JS.truthy (JS.trim x)) eqn:Hx; [|done].
  constructor; [|done]. split; [apply trim_idem|by apply truthy_true].
Qed.

Lemma scopeIdFor_entered scopeIds i :
  Forall entered scopeIds → scopeIdFor scopeIds i = positionalScopeId scopeIds i.
Proof.
  intros Hall.
  assert (Hat : ∀ j x, scopeIds !! j = Some x →
            JS.trim x = x ∧ JS.truthy x = true).
  { intros j x Hj. rewrite Forall_forall in Hall.
    destruct (Hall x) as [Ht Hne]; [by eapply list_elem_of_lookup_2|].
    by rewrite truthy_true. }
  unfold scopeIdFor, positionalScopeId, JS.orUndefined, JS.orElse.
  destruct (scopeIds !! i) as [x|] eqn:Hi; simpl.
  - destruct (Hat _ _ Hi) as [-> ->]. done.
  - destruct (scopeIds !! 0%nat) as [y|] eqn:H0; simpl; [|done].
    destruct (Hat _ _ H0) as [-> ->]. done.
Qed.

Lemma createdKey_entered e scopeIds apiKeys :
  Forall entered apiKeys → Forall entered scopeIds →
  imap (createdKey e scopeIds) apiKeys = imap (plainKey e scopeIds) apiKeys.
Proof.
  intros Hk Hs. apply imap_ext. intros i a Ha.
  unfold createdKey, plainKey. rewrite scopeIdFor_entered by done.
  rewrite Forall_forall in Hk.
  destruct (Hk a) as [-> _]; [by eapply list_elem_of_lookup_2|done].
Qed.

Lemma buildKeys_ok e apiKeys searchEngineIds : ∀ n start keys s,
  (start + n = length apiKeys)%nat →
  Setup.buildKeys e apiKeys searchEngineIds n start keys s
  = Ok (keys ++ imap (λ j a, createdKey e searchEngineIds (start + j) a)
                     (drop start apiKeys)) s.
Proof.
  induction n as [|n IH]; intros start keys s Hlen.
  - rewrite drop_ge by lia. simpl. by rewrite app_nil_r.
  - destruct (lookup_lt_is_Some_2 apiKeys start) as [a Ha]; [lia|].
    change (Setup.buildKeys e apiKeys searchEngineIds (S n) start keys s)
      with ((index apiKeys start ≫=
               λ x, Setup.buildKeys e apiKeys searchEngineIds n (S start)
                      (keys ++ [createdKey e searchEngineIds start x])) s).
    unfold mbind, M_bind, index. rewrite Ha. unfold mret, M_ret.
    rewrite IH by lia.
    rewrite (drop_S _ _ _ Ha), imap_cons, <- app_assoc. simpl.
    rewrite Nat.add_0_r. do 3 f_equal.
    apply imap_ext. intros j x _. simpl. f_equal. lia.
Qed.

Lemma setupGlobalConfig_ok e apiKeys searchEngineIds s :
  Setup.setupGlobalConfig e apiKeys searchEngineIds s
  = if writeOk e
    then Ok tt (set_disk
                  (Some (Json (mkDocument
                                 (imap (createdKey e searchEngineIds) apiKeys)
                                 (now e) (Some "1.0.0")))) s)
    else Throw (JS.ioError "EACCES") s.
Proof.
  unfold Setup.setupGlobalConfig. munfold.
  rewrite buildKeys_ok by done. simpl. rewrite drop_0.
  unfold writeFileSync. by destruct (writeOk e).
Qed.

Lemma refresh_created d e scopeIds i a :
  refresh d (createdKey e scopeIds i a)
  = mkApiKeyState ("key_" +:+ pretty (i + 1)%nat) (JS.trim a)
      (scopeIdFor scopeIds i) 0 100 d true.
Proof.
  unfold refresh, stale, createdKey. simpl.
  destruct (String.eqb_spec (today e) d) as [->|]; done.
Qed.

(** X11.  The file that the setup script writes and the method
    [setupKeys] lead to the same store: a manager loaded from the script's
    file, on whatever day, has the records that [setupKeys] with the same
    arguments creates on that day.  The file the script wrote holds the
    current version, so nothing is migrated, and a load on the day of the
    setup does not write the file. *)
Theorem setup_script_agrees_with_setupKeys (e e' : Env)
    (apiKeys searchEngineIds : list string) (s t : State) :
  writeOk e = true → readOk e' = true →
  ∃ s1 s' t',
    Setup.setupGlobalConfig e apiKeys searchEngineIds s = Ok tt s1
    ∧ loadConfig e' s1 = Ok tt s'
    ∧ setupKeys e' apiKeys searchEngineIds t = Ok tt t'
    ∧ records s' = records t'
    ∧ disk s1
      = Some (Json (mkDocument
                      (imap (createdKey e searchEngineIds) apiKeys)
                      (now e) (Some currentVersion)))
    ∧ version (config s') = Some currentVersion
    ∧ (today e' = today e →
       disk s' = disk s1 ∧ lastUpdated (config s') = now e).
Proof.
  intros Hw Hr.
  destruct (setupKeys_ok e' apiKeys searchEngineIds t)
    as (t' & Hsetup & _ & Hrect).
  set (d := mkDocument (imap (createdKey e searchEngineIds) apiKeys)
                       (now e) (Some "1.0.0")).
  set (s1 := set_disk (Some (Json d)) s).
  destruct (loadConfig_parsed e' s1 d eq_refl Hr)
    as (s2 & Hload & Hwf2 & Hrec2 & Hu2 & Hv2 & Hd2).
  assert (Hmig : migrated e' s2 = s2).
  { unfold migrated, versionMissing. by rewrite Hv2. }
  exists s1, (afterReset e' s2), t'.
  split; [by rewrite setupGlobalConfig_ok, Hw|].
  split; [by rewrite Hload, Hmig|]. split; [done|].
  split.
  { rewrite records_afterReset, Hrec2, Hrect. simpl.
    apply list_eq. intros i.
    rewrite list_lookup_fmap, !list_lookup_imap.
    destruct (apiKeys !! i) as [a|]; [|done]. simpl.
    by rewrite refresh_created. }
  split; [done|].
  split; [by rewrite version_afterReset, Hv2|].
  intros Hday.
  assert (Hset : settled (today e') s2).
  { unfold settled, anyStale. fold (records s2). rewrite Hrec2. simpl.
    apply not_true_is_false. rewrite existsb_exists.
    intros (k & Hin & Hst). apply list_elem_of_In in Hin.
    apply elem_of_lookup_imap in Hin as (i & a & -> & _).
    unfold stale, createdKey in Hst. simpl in Hst.
    by rewrite Hday, String.eqb_refl in Hst. }
  rewrite (afterReset_settled e' s2 Hset). by rewrite Hd2, Hu2.
Qed.

Lemma setup_script_agrees_with_setupKeys_witness :
  writeOk morning = true ∧ readOk afterMidnight = true
  ∧ ∃ s1 s' t',
      Setup.setupGlobalConfig morning ["AIzaSyA-first "; "AIzaSyB-second"]
        [" cx-1 "] blankStore = Ok tt s1
      ∧ loadConfig afterMidnight s1 = Ok tt s'
      ∧ setupKeys afterMidnight ["AIzaSyA-first "; "AIzaSyB-second"]
          [" cx-1 "] dayStore = Ok tt t'
      ∧ records s' = records t'.
Proof.
  split; [reflexivity|]. split; [reflexivity|].
  destruct (setup_script_agrees_with_setupKeys morning afterMidnight
              ["AIzaSyA-first "; "AIzaSyB-second"] [" cx-1 "]
              blankStore dayStore eq_refl eq_refl)
    as (s1 & s' & t' & H1 & H2 & H3 & H4 & _).
  exists s1, s', t'. repeat (split; [assumption|]). exact H4.
Defined.

Lemma length_zero_nil {A} (l : list A) : (length l =? 0)%nat = true → l = [].
Proof. destruct l; [done|]. simpl. discriminate. Qed.

Lemma length_nonzero {A} (l : list A) : (length l =? 0)%nat = false → l ≠ [].
Proof. destruct l; [simpl; discriminate|done]. Qed.

Lemma filter_nonempty {A} (f : A → bool) (l : list A) :
  (0 <? length (List.filter f l))%nat = true → ∃ x, x ∈ l ∧ f x = true.
Proof.
  induction l as [|x l IH]; simpl; [discriminate|].
  destruct (f x) eqn:Hx.
  - intros _. exists x. split; [left|done].
  - intros H. destruct (IH H) as (y & Hy & Hfy). exists y. split; [by right|done].
Qed.

(** X12.  The setup script's [main] never throws and never touches the
    records in memory.  It writes the file only when it ends as completed;
    the file then holds one record per entered (trimmed, non-empty) API key,
    numbered from key_1, with usage 0, limit 100, active, today's date, and
    the engine id of the same position or else the first one.  Each other
    ending leaves the file as it was, and tells why. *)
Theorem setup_main_endings (e : Env) (claude : bool) (answers : Setup.Answers)
    (s : State) :
  ∃ ending s',
    Setup.main e claude answers s = Ok ending s'
    ∧ heap s' = heap s ∧ config s' = config s
    ∧ match ending with
      | Setup.Preserved =>
          s' = s ∧ disk s ≠ None
          ∧ Setup.toLowerCase (Setup.overwrite answers) ≠ "y"
      | Setup.NoApiKey =>
          s' = s ∧ Setup.parseList (Setup.apiKeysInput answers) = []
      | Setup.Stopped =>
          s' = s
          ∧ Setup.toLowerCase (Setup.proceed answers) ≠ "y"
          ∧ ∃ k, k ∈ Setup.parseList (Setup.apiKeysInput answers)
                 ∧ Setup.validateApiKey k = false
      | Setup.NoEngineId =>
          s' = s ∧ Setup.parseList (Setup.engineIdsInput answers) = []
      | Setup.Completed c =>
          c = claude
          ∧ Setup.parseList (Setup.apiKeysInput answers) ≠ []
          ∧ Setup.parseList (Setup.engineIdsInput answers) ≠ []
          ∧ disk s'
            = Some (Json (mkDocument
                (imap (plainKey e (Setup.parseList
                                     (Setup.engineIdsInput answers)))
                      (Setup.parseList (Setup.apiKeysInput answers)))
                (now e) (Some "1.0.0")))
      | Setup.Failed _ => s' = s ∧ writeOk e = false
      end.
Proof.
  unfold Setup.main, existsSync. unfold mbind, mret, M_bind, M_ret. cbv beta.
  set (found := match disk s with Some _ => true | None => false end).
  destruct (found && negb (Setup.toLowerCase (Setup.overwrite answers) =? "y")%string)
    eqn:Hfirst.
  { exists Setup.Preserved, s. repeat (split; [done|]).
    apply andb_true_iff in Hfirst as [Hf Hy]. split.
    - subst found. by destruct (disk s).
    - apply negb_true_iff in Hy. by apply String.eqb_neq. }
  destruct (length (Setup.parseList (Setup.apiKeysInput answers)) =? 0)%nat
    eqn:Hkeys.
  { exists Setup.NoApiKey, s. repeat (split; [done|]).
    by apply length_zero_nil. }
  destruct (_ && negb (Setup.toLowerCase (Setup.proceed answers) =? "y")%string)
    eqn:Hstop.
  { exists Setup.Stopped, s. repeat (split; [done|]).
    apply andb_true_iff in Hstop as [Hbad Hy]. split.
    - apply negb_true_iff in Hy. by apply String.eqb_neq.
    - destruct (filter_nonempty _ _ Hbad) as (k & Hk & Hv).
      exists k. split; [done|]. by apply negb_true_iff in Hv. }
  destruct (length (Setup.parseList (Setup.engineIdsInput answers)) =? 0)%nat
    eqn:Hids.
  { exists Setup.NoEngineId, s. repeat (split; [done|]).
    by apply length_zero_nil. }
  unfold tryCatch. rewrite setupGlobalConfig_ok.
  destruct (writeOk e) eqn:Hw.
  - eexists (Setup.Completed claude), _. split; [done|].
    split; [done|]. split; [done|]. split; [done|].
    split; [by apply length_nonzero|]. split; [by apply length_nonzero|].
    simpl. by rewrite createdKey_entered by apply parseList_entered.
  - eexists (Setup.Failed _), s. by repeat (split; [done|]).
Qed.

(** *** The request of the search tool *)

Lemma spread_sublist name v : (Search.spread name v).*1 `sublist_of` [name].
Proof.
  unfold Search.spread. destruct v as [x|]; [destruct (JS.truthy x)|]; simpl.
  - done.
  - apply sublist_nil_l.
  - apply sublist_nil_l.
Qed.

Lemma spread_values name v :
  Forall (λ nv : string * string, nv.2 ≠ "") (Search.spread name v).
Proof.
  unfold Search.spread. destruct v as [x|]; [|constructor].
  destruct (JS.truthy x) eqn:Hx; [|constructor].
  constructor; [|constructor]. simpl. by apply truthy_true.
Qed.

Lemma orUndefined_nonempty a b : b ≠ "" → JS.orUndefined a b ≠ "".
Proof.
  intros Hb. unfold JS.orUndefined, JS.orElse.
  destruct a as [x|]; [|done].
  destruct (JS.truthy x) eqn:Hx; [by apply truthy_true|done].
Qed.

(** X13.  The request [execute] builds for the search API never asks for
    more than 10 results: a [num] from 1 to 10 is passed as it is, a
    missing [num] or 0 gives 5, a larger one gives 10; there is no lower
    bound, a negative [num] is passed on.  [start] is never 0 and [safe]
    never empty.  Each optional parameter is sent at most once, in the
    order of the source, and never with an empty value. *)
Theorem searchParams_request (key : ApiKeyState) (p : Search.SearchParams) :
  (Search.req_num (Search.searchParams key p) ≤ 10)%Z
  ∧ (∀ n, Search.num p = Some n → (1 ≤ n ≤ 10)%Z →
          Search.req_num (Search.searchParams key p) = n)
  ∧ (Search.num p = None ∨ Search.num p = Some 0%Z →
     Search.req_num (Search.searchParams key p) = 5%Z)
  ∧ (∀ n, Search.num p = Some n → (10 < n)%Z →
          Search.req_num (Search.searchParams key p) = 10%Z)
  ∧ (∀ n, Search.num p = Some n → (n < 0)%Z →
          Search.req_num (Search.searchParams key p) = n)
  ∧ Search.req_start (Search.searchParams key p) ≠ 0%Z
  ∧ Search.req_safe (Search.searchParams key p) ≠ ""
  ∧ (Search.optional (Search.searchParams key p)).*1
    `sublist_of` parameterNames
  ∧ NoDup (Search.optional (Search.searchParams key p)).*1
  ∧ Forall (λ nv : string * string, nv.2 ≠ "")
      (Search.optional (Search.searchParams key p)).
Proof.
  assert (Hsub : (Search.optional (Search.searchParams key p)).*1
                 `sublist_of` parameterNames).
  { unfold Search.searchParams, parameterNames. simpl.
    rewrite !fmap_app.
    change ["lr"; "gl"; "hl"; "dateRestrict"; "fileType"; "siteSearch";
            "siteSearchFilter"; "cr"; "exactTerms"; "excludeTerms";
            "orTerms"; "rights"; "sort"; "searchType"]
      with (["lr"] ++ ["gl"; "hl"] ++ ["dateRestrict"] ++ ["fileType"]
            ++ ["siteSearch"] ++ ["siteSearchFilter"] ++ ["cr"]
            ++ ["exactTerms"] ++ ["excludeTerms"] ++ ["orTerms"]
            ++ ["rights"] ++ ["sort"] ++ ["searchType"]).
    repeat (apply sublist_app; [try apply spread_sublist|]);
      try apply spread_sublist.
    destruct (Search.gl p) as [g|]; [destruct (JS.truthy g)|]; simpl;
      [done|apply sublist_nil_l|apply sublist_nil_l]. }
  unfold Search.searchParams, Search.numOr. simpl.
  split; [lia|].
  split. { intros n -> Hn. destruct (Z.eqb_spec n 0); lia. }
  split. { intros [->| ->]; simpl; lia. }
  split. { intros n -> Hn. destruct (Z.eqb_spec n 0); lia. }
  split. { intros n -> Hn. destruct (Z.eqb_spec n 0); lia. }
  split.
  { destruct (Search.start p) as [z|]; [|done].
    destruct (Z.eqb_spec z 0); [done|done]. }
  split; [by apply orUndefined_nonempty|].
  split; [exact Hsub|].
  split.
  { eapply sublist_NoDup; [|exact Hsub].
    apply (bool_decide_unpack _). by vm_compute. }
  repeat (apply Forall_app; split; [try apply spread_values|]);
    try apply spread_values.
  destruct (Search.gl p) as [g|]; [|constructor].
  destruct (JS.truthy g) eqn:Hg; [|constructor].
  apply truthy_true in Hg. by repeat constructor.
Qed.

(** *** The answers typed at the prompts of the setup script *)

Lemma splitComma_single x : commaFree x = true → Setup.splitComma x = [x].
Proof.
  induction x as [|c x IH]; simpl; [done|].
  intros [Hc Hx]%andb_true_iff. apply negb_true_iff in Hc.
  by rewrite Hc, IH.
Qed.

Lemma splitComma_comma x rest :
  commaFree x = true →
  Setup.splitComma (x +:+ String "," rest) = x :: Setup.splitComma rest.
Proof.
  induction x as [|c x IH]; simpl; [done|].
  intros [Hc Hx]%andb_true_iff. apply negb_true_iff in Hc.
  by rewrite Hc, IH.
Qed.

Lemma trim_space z : JS.trim (String " " z) = JS.trim z.
Proof. done. Qed.

Lemma splitComma_space z :
  JS.trim <$> Setup.splitComma (String " " z)
  = JS.trim <$> Setup.splitComma z.
Proof.
  change (Setup.splitComma (String " " z))
    with (match Setup.splitComma z with
          | [] => [String " " EmptyString]
          | w :: ws => String " " w :: ws
          end).
  destruct (Setup.splitComma z) as [|w ws] eqn:Hz; [|done].
  by destruct z as [|c z]; simpl in Hz;
    [|destruct (Ascii.eqb c ","); [|destruct (Setup.splitComma z)]].
Qed.

Lemma pieces_of_typed xs :
  xs ≠ [] → Forall entered xs → Forall (λ x, commaFree x = true) xs →
  JS.trim <$> Setup.splitComma (typed xs) = xs.
Proof.
  induction xs as [|x [|y rest] IH]; intros Hne He Hc; [done| |].
  - apply Forall_cons in He as [[Hx _] _]. apply Forall_cons in Hc as [Hc _].
    simpl. rewrite splitComma_single by done. simpl. by rewrite Hx.
  - apply Forall_cons in He as [[Hx _] He].
    apply Forall_cons in Hc as [Hcx Hc].
    change (typed (x :: y :: rest))
      with (x +:+ String "," (String " " (typed (y :: rest)))).
    rewrite splitComma_comma by done. rewrite fmap_cons, Hx.
    by rewrite splitComma_space, IH.
Qed.

Lemma filter_entered xs : Forall entered xs → List.filter JS.truthy xs = xs.
Proof.
  induction 1 as [|x xs [_ Hx] _ IH]; simpl; [done|].
  apply truthy_true in Hx. by rewrite Hx, IH.
Qed.

(** X14.  The setup script reads back what the user types: entries without
    commas, without white space at their ends and not empty, typed with a
    comma and a space between them, are parsed into exactly these entries,
    in order.  Typing nothing gives the empty list. *)
Theorem parseList_of_typed (xs : list string) :
  Forall entered xs → Forall (λ x, commaFree x = true) xs →
  Setup.parseList (typed xs) = xs.
Proof.
  intros He Hc. unfold Setup.parseList.
  destruct xs as [|x rest]; [done|].
  rewrite pieces_of_typed by done. by apply filter_entered.
Qed.

Lemma parseList_of_typed_witness :
  Forall entered ["AIzaSyA-first"; "AIzaSyB second"; "c"]
  ∧ Forall (λ x, commaFree x = true) ["AIzaSyA-first"; "AIzaSyB second"; "c"]
  ∧ Setup.parseList "AIzaSyA-first, AIzaSyB second, c"
    = ["AIzaSyA-first"; "AIzaSyB second"; "c"].
Proof.
  assert (He : Forall entered ["AIzaSyA-first"; "AIzaSyB second"; "c"]).
  { repeat (apply Forall_cons; split; [split; [reflexivity|discriminate]|]).
    apply Forall_nil_2. }
  assert (Hc : Forall (λ x, commaFree x = true)
                 ["AIzaSyA-first"; "AIzaSyB second"; "c"]).
  { repeat (apply Forall_cons; split; [reflexivity|]). apply Forall_nil_2. }
  split; [exact He|]. split; [exact Hc|].
  exact (parseList_of_typed ["AIzaSyA-first"; "AIzaSyB second"; "c"] He Hc).
Defined.
